(** * marketing-rag: metric pipeline and retrieval engine

    A shallow embedding of [src/data_processor.py], [src/rag_engine.py] and
    [src/cli.py].

    The Python modules are thin layers over pandas/numpy and over
    LangChain/Chroma.  The embedding keeps the repository's functions line by
    line and gives the library calls they make an executable model:

    - [float64]: numpy's float64 as an extended rational (finite values are
      exact, rounding is not modelled; NaN and the two infinities are values);
    - [Series], [DataFrame]: typed columns over a RangeIndex; data frames are
      mutable objects that live in a [heap] and are passed by reference;
    - [str]: a [string] of characters with codes below 256;
    - [RecursiveCharacterTextSplitter]: LangChain's splitter, with the
      constructor arguments of [build_knowledge_base];
    - [VectorStore]: the interface of the Chroma vector store, with [chroma]
      as the instance that follows Chroma's get-or-create collections. *)

From Stdlib Require Import Ascii String QArith Qreduction.
From Stdlib Require Import Sorted.
From stdpp Require Import gmap strings list fin_maps.

Local Open Scope list_scope.

(** ** Python exceptions and results *)

Inductive exn :=
| ValueError (msg : string)
| KeyError (key : string)
| TypeError (msg : string)
| IndexError (msg : string).

(** A Python call either raises ([inl]) or returns ([inr]). *)
Definition except (A : Type) : Type := exn + A.

Definition raise {A} (e : exn) : except A := inl e.
Definition ok {A} (x : A) : except A := inr x.

Definition raises {A} (r : except A) : Prop := exists e, r = inl e.

(** ** numpy float64 *)

Module Float64.

Inductive float64 :=
| NaN
| PInf
| NInf
| Fin (q : Q).

Definition zero : float64 := Fin 0.

Definition isnan (x : float64) : bool :=
  match x with NaN => true | _ => false end.

Definition Qltb (a b : Q) : bool :=
  match Qcompare a b with Lt => true | _ => false end.

Definition Qeqb (a b : Q) : bool :=
  match Qcompare a b with Eq => true | _ => false end.

(** [x + y]; exact on finite values: rounding and overflow are not
    modelled. *)
Definition fadd (x y : float64) : float64 :=
  match x, y with
  | NaN, _ | _, NaN => NaN
  | PInf, NInf | NInf, PInf => NaN
  | PInf, _ | _, PInf => PInf
  | NInf, _ | _, NInf => NInf
  | Fin a, Fin b => Fin (Qred (a + b))
  end.

(** [x / y]; a zero denominator gives an infinity or NaN, never an
    exception (numpy semantics; signed zeros are not distinguished). *)
Definition fdiv (x y : float64) : float64 :=
  match x, y with
  | NaN, _ | _, NaN => NaN
  | Fin a, Fin b =>
      if Qeqb b 0 then
        (if Qeqb a 0 then NaN else if Qltb 0 a then PInf else NInf)
      else Fin (Qred (a / b))
  | Fin _, _ => Fin 0
  | PInf, Fin b => if Qltb b 0 then NInf else PInf
  | NInf, Fin b => if Qltb b 0 then PInf else NInf
  | _, _ => NaN
  end.

(** [x > y]; every comparison with NaN is false. *)
Definition fgt (x y : float64) : bool :=
  match x, y with
  | NaN, _ | _, NaN => false
  | PInf, PInf => false
  | PInf, _ => true
  | _, PInf => false
  | NInf, _ => false
  | Fin _, NInf => true
  | Fin a, Fin b => Qltb b a
  end.

(** [x == y] *)
Definition feq (x y : float64) : bool :=
  match x, y with
  | PInf, PInf | NInf, NInf => true
  | Fin a, Fin b => Qeqb a b
  | _, _ => false
  end.

End Float64.
Import Float64.

(** ** pandas *)

(** A column is either an object column of strings or a float64 column. *)
Inductive Series :=
| SObj (l : list string)
| SFloat (l : list float64).

Inductive cell :=
| CStr (s : string)
| CFloat (x : float64).

Definition Series_length (s : Series) : nat :=
  match s with
  | SObj l => length l
  | SFloat l => length l
  end.

Definition Series_iloc (s : Series) (i : nat) : option cell :=
  match s with
  | SObj l => CStr <$> l !! i
  | SFloat l => CFloat <$> l !! i
  end.

(** A data frame over [RangeIndex(nrows)]: the columns in their order. *)
Record DataFrame := {
  nrows : nat;
  columns : list (string * Series)
}.

Fixpoint assoc_get {V} (c : string) (cols : list (string * V)) : option V :=
  match cols with
  | [] => None
  | (c', s) :: rest => if String.eqb c c' then Some s else assoc_get c rest
  end.

(** Assignment to an existing key keeps its place, a new key goes last. *)
Fixpoint assoc_set {V} (c : string) (s : V) (cols : list (string * V))
  : list (string * V) :=
  match cols with
  | [] => [(c, s)]
  | (c', s') :: rest =>
      if String.eqb c c' then (c, s) :: rest else (c', s') :: assoc_set c s rest
  end.

Definition frame_get (c : string) (v : DataFrame) : option Series :=
  assoc_get c (columns v).

Definition frame_set (c : string) (s : Series) (v : DataFrame) : DataFrame :=
  {| nrows := nrows v; columns := assoc_set c s (columns v) |}.

(** [c in df.columns] *)
Definition has_column (c : string) (v : DataFrame) : bool :=
  match frame_get c v with Some _ => true | None => false end.

(** Every column has one entry per index label. *)
Definition frame_wf (v : DataFrame) : Prop :=
  Forall (fun cs => Series_length cs.2 = nrows v) (columns v).

(** *** Column operations *)

(** [s.astype(float)]: a float64 column is kept; an object column of
    [read_csv] holds text that is not numeric, which [float()] rejects. *)
Definition astype_float (s : Series) : except Series :=
  match s with
  | SFloat l => ok (SFloat l)
  | SObj [] => ok (SFloat [])
  | SObj (x :: _) => raise (ValueError ("could not convert string to float: " +:+ x))
  end.

(** [s > y]; the comparison is made entry by entry, so that text is
    rejected where there is an entry to compare. *)
Definition Series_gt (s : Series) (y : float64) : except (list bool) :=
  match s with
  | SFloat l => ok (map (fun x => fgt x y) l)
  | SObj [] => ok []
  | SObj (_ :: _) =>
      raise (TypeError "'>' not supported between instances of 'str' and 'int'")
  end.

(** [a / b], element by element, for two columns of one frame (they share
    its index); text is rejected where there is an entry to divide. *)
Definition Series_truediv (a b : Series) : except Series :=
  match a, b with
  | SFloat xs, SFloat ys => ok (SFloat (zip_with fdiv xs ys))
  | _, _ =>
      if Nat.eqb (Series_length a) 0 && Nat.eqb (Series_length b) 0
      then ok (SObj [])
      else raise (TypeError "unsupported operand type(s) for /")
  end.

(** [np.where(cond, x, y)] with a scalar [y]: both alternatives are already
    evaluated, the mask only selects.  [x] is a quotient, which is text
    only when it is empty. *)
Definition np_where (cond : list bool) (x : Series) (y : float64) : except Series :=
  match x with
  | SFloat xs =>
      if Nat.eqb (length cond) (length xs)
      then ok (SFloat (zip_with (fun (b : bool) v => if b then v else y) cond xs))
      else raise (ValueError "operands could not be broadcast together")
  | SObj [] =>
      if Nat.eqb (length cond) 0
      then ok (SObj [])
      else raise (ValueError "operands could not be broadcast together")
  | SObj (_ :: _) => raise (TypeError "object column in a float64 selection")
  end.

(** *** The heap of data frames *)

Abbreviation ref := nat (only parsing).
Abbreviation heap := (gmap nat DataFrame) (only parsing).

(** A computation on the heap that returns or raises; the heap it leaves
    behind is defined in both cases. *)
Definition M (A : Type) : Type := heap -> except A * heap.

#[global] Instance M_ret : MRet M := fun A (x : A) (h : heap) => (ok x, h).
#[global] Instance M_bind : MBind M := fun A B (f : A -> M B) (m : M A) (h : heap) =>
  match m h with
  | (inl e, h') => (inl e, h')
  | (inr x, h') => f x h'
  end.

Definition lift {A} (r : except A) : M A := fun h => (r, h).

(** A new frame object. *)
Definition new_frame (v : DataFrame) : M ref := fun h =>
  let r := fresh (dom h) in (ok r, <[r := v]> h).

Definition deref (r : ref) : M DataFrame := fun h =>
  match h !! r with
  | Some v => (ok v, h)
  | None => (raise (KeyError "no such object"), h)
  end.

(** [df[c]] *)
Definition getitem (r : ref) (c : string) : M Series :=
  v ← deref r;
  match frame_get c v with
  | Some s => mret s
  | None => lift (raise (KeyError c))
  end.

(** [df[c] = s], in place. *)
Definition setitem (r : ref) (c : string) (s : Series) : M unit := fun h =>
  match h !! r with
  | Some v =>
      if Nat.eqb (Series_length s) (nrows v)
      then (ok tt, <[r := frame_set c s v]> h)
      else (raise (ValueError "Length of values does not match length of index"), h)
  | None => (raise (KeyError "no such object"), h)
  end.

(** ** data_processor.py *)

Definition nan : float64 := NaN.

(** [df[c] = df[c].astype(float)] *)
Definition coerce_column (df : ref) (c : string) : M unit :=
  s ← getitem df c;
  s' ← lift (astype_float s);
  setitem df c s'.

(** [df[out] = np.where(df[den] > 0, df[num] / df[den], np.nan)] *)
Definition derive_ratio (df : ref) (out num den : string) : M unit :=
  d ← getitem df den;
  mask ← lift (Series_gt d zero);
  n ← getitem df num;
  d' ← getitem df den;
  quot ← lift (Series_truediv n d');
  col ← lift (np_where mask quot nan);
  setitem df out col.

(** [load_and_process_campaigns]; [parsed] is the table that
    [pd.read_csv(csv_path, parse_dates=["date"])] returns. *)
Definition load_and_process_campaigns (parsed : DataFrame) : M ref :=
  df ← new_frame parsed;
  coerce_column df "spend_BRL";;
  coerce_column df "revenue_BRL";;
  coerce_column df "impressions";;
  coerce_column df "clicks";;
  coerce_column df "conversions";;
  derive_ratio df "cpa_BRL" "spend_BRL" "conversions";;
  derive_ratio df "roas" "revenue_BRL" "spend_BRL";;
  derive_ratio df "ctr" "clicks" "impressions";;
  mret df.

(** *** groupby(...).agg(... "sum" ...).reset_index() *)

(** [sum] skips NaN entries ([skipna=True]). *)
Definition nanadd (s x : float64) : float64 :=
  if isnan x then s else fadd s x.

Definition nansum (l : list float64) : float64 := fold_left nanadd l zero.

Section GroupBy.
Context {K : Type} (keq klt : K -> K -> bool) (notna : K -> bool).

(** The distinct keys, sorted ([sort=True]); NA keys form no group. *)
Fixpoint key_insert (k : K) (us : list K) : list K :=
  match us with
  | [] => [k]
  | u :: rest =>
      if keq k u then us
      else if klt k u then k :: us
      else u :: key_insert k rest
  end.

Definition group_keys (ks : list K) : list K :=
  fold_left (fun us k => if notna k then key_insert k us else us) ks [].

(** One pass over the rows: each value is added to its group's total. *)
Definition acc_add (k : K) (x : float64) (accs : list (K * float64))
  : list (K * float64) :=
  map (fun a => if keq k a.1 then (a.1, nanadd a.2 x) else a) accs.

Definition group_sum (ks : list K) (vals : list float64) : list float64 :=
  map snd
    (fold_left (fun accs kx => acc_add kx.1 kx.2 accs) (zip ks vals)
       (map (fun u => (u, zero)) (group_keys ks))).

(** On an object column of text the sum of a group is the concatenation
    of its entries, in row order. *)
Definition acc_concat (k : K) (x : string) (accs : list (K * string))
  : list (K * string) :=
  map (fun a => if keq k a.1 then (a.1, a.2 +:+ x) else a) accs.

Definition group_concat (ks : list K) (vals : list string) : list string :=
  map snd
    (fold_left (fun accs kx => acc_concat kx.1 kx.2 accs) (zip ks vals)
       (map (fun u => (u, EmptyString)) (group_keys ks))).
End GroupBy.

Definition fltb (x y : float64) : bool := fgt y x.
Definition notnan (x : float64) : bool := negb (isnan x).

(** The summed columns [(out, src)] of the named aggregations; a column
    keeps its dtype. *)
Fixpoint agg_columns (sum_of : list float64 -> list float64)
    (concat_of : list string -> list string) (v : DataFrame)
    (aggs : list (string * string)) : except (list (string * Series)) :=
  match aggs with
  | [] => ok []
  | (out, src) :: rest =>
      match frame_get src v with
      | None => raise (KeyError src)
      | Some col =>
          match agg_columns sum_of concat_of v rest with
          | inl e => inl e
          | inr cols =>
              ok ((out, match col with
                        | SFloat vals => SFloat (sum_of vals)
                        | SObj vals => SObj (concat_of vals)
                        end) :: cols)
          end
      end
  end.

Definition groupby_agg_sum (v : DataFrame) (by_ : string)
    (aggs : list (string * string)) : except DataFrame :=
  match frame_get by_ v with
  | None => raise (KeyError by_)
  | Some (SObj ks) =>
      let us := group_keys String.eqb String.ltb (fun _ => true) ks in
      match agg_columns (group_sum String.eqb String.ltb (fun _ => true) ks)
              (group_concat String.eqb String.ltb (fun _ => true) ks) v aggs with
      | inl e => inl e
      | inr cols => ok {| nrows := length us; columns := (by_, SObj us) :: cols |}
      end
  | Some (SFloat ks) =>
      let us := group_keys feq fltb notnan ks in
      match agg_columns (group_sum feq fltb notnan ks)
              (group_concat feq fltb notnan ks) v aggs with
      | inl e => inl e
      | inr cols => ok {| nrows := length us; columns := (by_, SFloat us) :: cols |}
      end
  end.

Definition aggregate_by_channel (df : ref) : M ref :=
  v ← deref df;
  g ← lift (groupby_agg_sum v "channel"
              [("spend_BRL", "spend_BRL");
               ("revenue_BRL", "revenue_BRL");
               ("impressions", "impressions");
               ("clicks", "clicks");
               ("conversions", "conversions")]);
  grouped ← new_frame g;
  derive_ratio grouped "cpa_BRL" "spend_BRL" "conversions";;
  derive_ratio grouped "roas" "revenue_BRL" "spend_BRL";;
  derive_ratio grouped "ctr" "clicks" "impressions";;
  mret grouped.

(** *** idxmax and loc *)

(** Position of the first occurrence of the maximum among the entries that
    are not NaN; [best] is the running maximum and its position. *)
Fixpoint argmax_from (i : nat) (best : option (nat * float64))
    (l : list float64) : option nat :=
  match l with
  | [] => fst <$> best
  | x :: rest =>
      if isnan x then argmax_from (S i) best rest
      else match best with
           | None => argmax_from (S i) (Some (i, x)) rest
           | Some (_, b) =>
               if fgt x b then argmax_from (S i) (Some (i, x)) rest
               else argmax_from (S i) best rest
           end
  end.

(** [s.idxmax()]: the label of the maximum; an empty column raises, a
    column that is NaN throughout gives the NA label ([None]). *)
Definition idxmax (s : Series) : except (option nat) :=
  match s with
  | SObj _ => raise (TypeError "reduction operation 'argmax' not allowed for this dtype")
  | SFloat [] => raise (ValueError "attempt to get argmax of an empty sequence")
  | SFloat l => ok (argmax_from 0 None l)
  end.

(** [df.loc[label]]: the row under that label, as a column -> cell map. *)
Definition loc (v : DataFrame) (label : option nat)
  : except (list (string * cell)) :=
  match label with
  | None => raise (KeyError "nan")
  | Some i =>
      if Nat.ltb i (nrows v)
      then ok (omap (fun cs => pair cs.1 <$> Series_iloc cs.2 i) (columns v))
      else raise (KeyError "label out of range")
  end.

Definition row_getitem (row : list (string * cell)) (c : string) : except cell :=
  match assoc_get c row with
  | Some x => ok x
  | None => raise (KeyError c)
  end.

(** [float(x)] *)
Definition float_of_cell (x : cell) : except float64 :=
  match x with
  | CFloat y => ok y
  | CStr s => raise (ValueError ("could not convert string to float: " +:+ s))
  end.

Definition get_best_channel_by_roas (df : ref) : M (cell * float64) :=
  v ← deref df;
  if negb (has_column "channel" v) || negb (has_column "roas" v)
  then lift (raise (ValueError "DataFrame precisa conter colunas 'channel' e 'roas'."))
  else
    roas ← getitem df "roas";
    label ← lift (idxmax roas);
    v' ← deref df;
    best_row ← lift (loc v' label);
    ch ← lift (row_getitem best_row "channel");
    r ← lift (row_getitem best_row "roas");
    x ← lift (float_of_cell r);
    mret (ch, x).

(** ** langchain.text_splitter.RecursiveCharacterTextSplitter *)

Module TextSplitter.

Local Open Scope Z_scope.
Local Open Scope list_scope.

Definition LF : string := String "010"%char "".

Record RecursiveCharacterTextSplitter := {
  _chunk_size : Z;
  _chunk_overlap : Z;
  _separators : list string;
  _keep_separator : bool;
  _strip_whitespace : bool
}.

(** [len(s)], the default length function. *)
Definition len (s : string) : Z := Z.of_nat (String.length s).

(** *** [re] on an escaped (literal) separator *)

(** [re.search(re.escape(sep), text)] finds something. *)
Fixpoint re_search (sep text : string) : bool :=
  if String.prefix sep text then true
  else match text with
       | EmptyString => false
       | String _ rest => re_search sep rest
       end.

(** [re.split("(sep)", text)] for a non-empty literal [sep]: the pieces
    between the matches, scanned from the left, with the matched
    separator after each piece but the last.  [skip] counts the characters
    of the current match still to pass, [cur] is the piece being read. *)
Fixpoint re_split_capture (sep : string) (skip : nat) (cur : string)
    (text : string) : list string :=
  match text with
  | EmptyString => [cur]
  | String c rest =>
      match skip with
      | S n => re_split_capture sep n cur rest
      | O =>
          if String.prefix sep text
          then cur :: sep :: re_split_capture sep (String.length sep - 1) "" rest
          else re_split_capture sep O (cur +:+ String c "") rest
      end
  end.

(** [re.split(sep, text)]: the pieces alone. *)
Fixpoint re_split (sep : string) (skip : nat) (cur : string)
    (text : string) : list string :=
  match text with
  | EmptyString => [cur]
  | String c rest =>
      match skip with
      | S n => re_split sep n cur rest
      | O =>
          if String.prefix sep text
          then cur :: re_split sep (String.length sep - 1) "" rest
          else re_split sep O (cur +:+ String c "") rest
      end
  end.

(** [[_splits[i] + _splits[i + 1] for i in range(1, len(_splits), 2)]],
    given [_splits[1:]]. *)
Fixpoint pair_up (l : list string) : list string :=
  match l with
  | a :: b :: rest => (a +:+ b) :: pair_up rest
  | _ => []
  end.

Definition nonempty (s : string) : bool := negb (String.eqb s "").

Definition _split_text_with_regex (text separator : string)
    (keep_separator : bool) : list string :=
  let splits :=
    if nonempty separator then
      if keep_separator then
        let _splits := re_split_capture separator O "" text in
        let splits := pair_up (tail _splits) in
        let splits :=
          if Nat.even (length _splits)
          then splits ++ [List.last _splits ""] else splits in
        hd "" _splits :: splits
      else re_split separator O "" text
    else map (fun c => String c "") (list_ascii_of_string text)
  in filter (fun s => nonempty s = true) splits.

(** *** [str.join] and [str.strip] *)

Fixpoint join (sep : string) (l : list string) : string :=
  match l with
  | [] => ""
  | [x] => x
  | x :: rest => x +:+ sep +:+ join sep rest
  end.

(** [str.isspace] on the characters of a text, whose codes are below 256:
    tab to carriage return, the four separators [0x1c]-[0x1f], the space,
    next line ([0x85]) and the no-break space ([0xa0]). *)
Definition isspace (c : ascii) : bool :=
  let n := nat_of_ascii c in
  ((9 <=? n)%nat && (n <=? 13)%nat) || ((28 <=? n)%nat && (n <=? 32)%nat)
  || (n =? 133)%nat || (n =? 160)%nat.

Fixpoint lstrip (s : string) : string :=
  match s with
  | EmptyString => EmptyString
  | String c rest => if isspace c then lstrip rest else s
  end.

Fixpoint rstrip (s : string) : string :=
  match s with
  | EmptyString => EmptyString
  | String c rest =>
      match rstrip rest with
      | EmptyString => if isspace c then EmptyString else String c EmptyString
      | r => String c r
      end
  end.

Definition strip (s : string) : string := rstrip (lstrip s).

Section Methods.
Variable self : RecursiveCharacterTextSplitter.

Definition _join_docs (docs : list string) (separator : string)
  : option string :=
  let text := join separator docs in
  let text := if _strip_whitespace self then strip text else text in
  if String.eqb text "" then None else Some text.

(** The [while] loop of [_merge_splits]: pieces are dropped from the
    front of [current_doc] until what is left fits the overlap and
    leaves room for the next piece of length [_len]. *)
Fixpoint pop_loop (separator_len _len total : Z)
    (current_doc : list string) : except (Z * list string) :=
  if (_chunk_overlap self <? total)
     || ((_chunk_size self <?
            total + _len
            + (if (0 <? length current_doc)%nat then separator_len else 0))
         && (0 <? total))
  then
    match current_doc with
    | [] => raise (IndexError "list index out of range")
    | d0 :: rest =>
        pop_loop separator_len _len
          (total - (len d0
                    + (if (1 <? length current_doc)%nat
                       then separator_len else 0)))
          rest
    end
  else ok (total, current_doc).

(** The [for] loop of [_merge_splits] over the state
    [(docs, current_doc, total)]. *)
Fixpoint merge_loop (separator : string) (splits : list string)
    (docs current_doc : list string) (total : Z)
  : except (list string) :=
  let separator_len := len separator in
  match splits with
  | [] =>
      match _join_docs current_doc separator with
      | Some doc => ok (docs ++ [doc])
      | None => ok docs
      end
  | d :: rest =>
      let _len := len d in
      if _chunk_size self <?
         total + _len
         + (if (0 <? length current_doc)%nat then separator_len else 0)
      then
        if (0 <? length current_doc)%nat then
          let docs :=
            match _join_docs current_doc separator with
            | Some doc => docs ++ [doc]
            | None => docs
            end in
          match pop_loop separator_len _len total current_doc with
          | inl e => inl e
          | inr (total, current_doc) =>
              let current_doc := current_doc ++ [d] in
              merge_loop separator rest docs current_doc
                (total + (_len + (if (1 <? length current_doc)%nat
                                  then separator_len else 0)))
          end
        else
          let current_doc := current_doc ++ [d] in
          merge_loop separator rest docs current_doc
            (total + (_len + (if (1 <? length current_doc)%nat
                              then separator_len else 0)))
      else
        let current_doc := current_doc ++ [d] in
        merge_loop separator rest docs current_doc
          (total + (_len + (if (1 <? length current_doc)%nat
                            then separator_len else 0)))
  end.

Definition _merge_splits (splits : list string) (separator : string)
  : except (list string) :=
  merge_loop separator splits [] [] 0.

(** The [for s in splits] loop of [_split_text].  [recur] is [None]
    when [new_separators] is empty and otherwise the recursive call
    [self._split_text(_, new_separators)]. *)
Fixpoint split_loop (recur : option (string -> except (list string)))
    (_separator : string) (splits : list string)
    (final_chunks _good_splits : list string) : except (list string) :=
  match splits with
  | [] =>
      match _good_splits with
      | [] => ok final_chunks
      | _ =>
          match _merge_splits _good_splits _separator with
          | inl e => inl e
          | inr merged_text => ok (final_chunks ++ merged_text)
          end
      end
  | s :: rest =>
      if len s <? _chunk_size self
      then split_loop recur _separator rest final_chunks (_good_splits ++ [s])
      else
        match
          (match _good_splits with
           | [] => ok final_chunks
           | _ =>
               match _merge_splits _good_splits _separator with
               | inl e => inl e
               | inr merged_text => ok (final_chunks ++ merged_text)
               end
           end)
        with
        | inl e => inl e
        | inr final_chunks =>
            match recur with
            | None => split_loop recur _separator rest (final_chunks ++ [s]) []
            | Some f =>
                match f s with
                | inl e => inl e
                | inr other_info =>
                    split_loop recur _separator rest
                      (final_chunks ++ other_info) []
                end
            end
        end
  end.

(** Everything of [_split_text] after the separator is chosen. *)
Definition split_with (separator : string)
    (recur : option (string -> except (list string))) (text : string)
  : except (list string) :=
  let splits := _split_text_with_regex text separator (_keep_separator self) in
  let _separator := if _keep_separator self then "" else separator in
  split_loop recur _separator splits [] [].

(** [_split_text(text, separators)].  The scan for the first separator
    that occurs in [text] is the recursion on the list: it uses that
    separator and recurses on long pieces with the separators after it
    ([new_separators]); when none occurs, the last one is used with no
    separators left. *)
Fixpoint _split_text (separators : list string) (text : string)
  {struct separators} : except (list string) :=
  match separators with
  | [] => raise (IndexError "list index out of range")
  | _s :: rest =>
      if String.eqb _s "" then split_with _s None text
      else if re_search _s text then
        split_with _s
          (match rest with
           | [] => None
           | _ => Some (_split_text rest)
           end) text
      else
        match rest with
        | [] => split_with _s None text
        | _ => _split_text rest text
        end
  end.

Definition split_text (text : string) : except (list string) :=
  _split_text (_separators self) text.
End Methods.

End TextSplitter.

(** ** rag_engine.py *)

Module RagEngine.
Import TextSplitter.

(** [langchain.schema.Document] *)
Record Document := {
  page_content : string;
  metadata : gmap string string
}.

(** What is persisted: the collection stored under each location. *)
Abbreviation disk := (gmap string (list Document)) (only parsing).

(** A [Chroma] object is a handle on the collection of its location. *)
Record Chroma := { _persist_directory : string }.

(** The vector store as [MarketingRAG] uses it.  The embedding model and
    the nearest-neighbour search are the library's business; a score is
    the distance Chroma reports for a hit.  A call that raises gives no
    disk: what a failed call leaves behind is outside the model. *)
Class VectorStore := {
  (** [Chroma(embedding_function=e, persist_directory=p)] *)
  Chroma_init : string -> string -> disk -> except (Chroma * disk);
  (** [Chroma.from_documents(documents=docs, embedding=e, persist_directory=p)] *)
  Chroma_from_documents :
    list Document -> string -> string -> disk -> except (Chroma * disk);
  (** [store.similarity_search_with_score(query, k)] *)
  similarity_search_with_score :
    Chroma -> string -> Z -> disk -> except (list (Document * Q))
}.

(** *** Chroma *)

Fixpoint insert_by_distance (x : Document * Q) (l : list (Document * Q))
  : list (Document * Q) :=
  match l with
  | [] => [x]
  | y :: rest =>
      if Qltb x.2 y.2 then x :: l else y :: insert_by_distance x rest
  end.

Definition rank (l : list (Document * Q)) : list (Document * Q) :=
  foldr insert_by_distance [] l.

(** What Chroma raises when it is given no document to add. *)
Definition no_documents : exn :=
  ValueError "Expected IDs to be a non-empty list, got 0 IDs".

(** Chroma for engines of one embedding model, the model and the metric
    folded into [distance query text]: a collection is fetched or created
    empty at the location, documents are added to it, and a search returns
    the [k] nearest entries.  Adding no document at all is refused. *)
Definition chroma (distance : string -> string -> Q) : VectorStore := {|
  Chroma_init _ p d :=
    ok ({| _persist_directory := p |}, <[p := default [] (d !! p)]> d);
  Chroma_from_documents docs _ p d :=
    match docs with
    | [] => raise no_documents
    | _ :: _ =>
        ok ({| _persist_directory := p |}, <[p := default [] (d !! p) ++ docs]> d)
    end;
  similarity_search_with_score store query k d :=
    if (k <=? 0)%Z
    then raise (ValueError "Number of requested results cannot be negative, or zero.")
    else
      let entries := default [] (d !! _persist_directory store) in
      ok (take (Z.to_nat k)
            (rank (map (fun e => (e, distance query (page_content e))) entries)))
|}.

(** *** MarketingRAG *)

Record MarketingRAG := {
  persist_directory : string;
  embeddings : string;
  vectorstore : option Chroma
}.

(** [MarketingRAG(persist_directory, model_name)]; creating the directory
    persists no collection. *)
Definition MarketingRAG_init (persist_directory model_name : string)
  : MarketingRAG :=
  {| persist_directory := persist_directory;
     embeddings := model_name;
     vectorstore := None |}.

Definition splitter : RecursiveCharacterTextSplitter :=
  {| _chunk_size := 500;
     _chunk_overlap := 50;
     _separators := [LF +:+ LF; LF; "."; " "];
     _keep_separator := true;
     _strip_whitespace := true |}.

(** The loops that fill [docs] from [zip(texts, metadatas)]. *)
Fixpoint chunk_documents (pairs : list (string * gmap string string))
  : except (list Document) :=
  match pairs with
  | [] => ok []
  | (text, meta) :: rest =>
      match split_text splitter text with
      | inl e => inl e
      | inr chunks =>
          match chunk_documents rest with
          | inl e => inl e
          | inr docs =>
              ok (map (fun chunk => {| page_content := chunk; metadata := meta |})
                    chunks ++ docs)
          end
      end
  end.

Section Engine.
Context {VS : VectorStore}.

Definition build_knowledge_base (self : MarketingRAG) (texts : list string)
    (metadatas : option (list (gmap string string))) (d : disk)
  : except (MarketingRAG * disk) :=
  let metadatas :=
    match metadatas with
    | None => map (fun _ => ∅) texts
    | Some ms => ms
    end in
  match chunk_documents (zip texts metadatas) with
  | inl e => inl e
  | inr docs =>
      match Chroma_from_documents docs (embeddings self)
              (persist_directory self) d with
      | inl e => inl e
      | inr (store, d') =>
          ok ({| persist_directory := persist_directory self;
                 embeddings := embeddings self;
                 vectorstore := Some store |}, d')
      end
  end.

Definition load_existing_knowledge_base (self : MarketingRAG) (d : disk)
  : except (MarketingRAG * disk) :=
  match Chroma_init (embeddings self) (persist_directory self) d with
  | inl e => inl e
  | inr (store, d') =>
      ok ({| persist_directory := persist_directory self;
             embeddings := embeddings self;
             vectorstore := Some store |}, d')
  end.

(** [store.similarity_search(query, k)] drops the scores. *)
Definition similarity_search (store : Chroma) (query : string) (k : Z)
    (d : disk) : except (list Document) :=
  match similarity_search_with_score store query k d with
  | inl e => inl e
  | inr hits => ok (map fst hits)
  end.

Definition not_initialized : exn :=
  ValueError "Vectorstore não inicializado. Chame build_knowledge_base ou load_existing_knowledge_base primeiro.".

Definition retrieve (self : MarketingRAG) (query : string) (k : Z)
    (d : disk) : except (list Document) :=
  match vectorstore self with
  | None => raise not_initialized
  | Some store => similarity_search store query k d
  end.

Definition answer (self : MarketingRAG) (query : string) (k : Z)
    (d : disk) : except string :=
  match retrieve self query k d with
  | inl e => inl e
  | inr docs =>
      let context := join (LF +:+ "---" +:+ LF) (map page_content docs) in
      ok ("Pergunta: " +:+ query +:+ LF +:+ LF
          +:+ "Contexto relevante encontrado:" +:+ LF +:+ context
          +:+ LF +:+ LF
          +:+ "Resumo: com base nos trechos acima, analise manualmente o melhor canal, "
          +:+ "campanha ou insight de marketing.")
  end.
End Engine.

End RagEngine.

(** ** cli.py *)

Module Cli.

(** [str.lower], on the ASCII letters. *)
Definition lower_char (c : ascii) : ascii :=
  let n := nat_of_ascii c in
  if (65 <=? n)%nat && (n <=? 90)%nat then ascii_of_nat (n + 32) else c.

Fixpoint lower (s : string) : string :=
  match s with
  | EmptyString => EmptyString
  | String c rest => String (lower_char c) (lower rest)
  end.

(** [sub in s] *)
Fixpoint str_in (sub s : string) : bool :=
  if String.prefix sub s then true
  else match s with
       | EmptyString => false
       | String _ rest => str_in sub rest
       end.

(** The default of [--pergunta]. *)
Definition default_pergunta : string := "Qual canal teve melhor ROAS?".

Definition unsupported : string :=
  "Pergunta nao suportada ainda. Exemplos: 'Qual canal teve melhor ROAS?'".

Section Main.
(** [f"{x:.2f}"] and [str(x)] on a float. *)
Variable format_2f : float64 -> string.
Variable str_float : float64 -> string.

(** [f"{channel}"] *)
Definition str_cell (x : cell) : string :=
  match x with
  | CStr s => s
  | CFloat y => str_float y
  end.

Definition best_channel_line (channel : cell) (roas : float64) : string :=
  "O canal com melhor ROAS foi: " +:+ str_cell channel
  +:+ " (ROAS = " +:+ format_2f roas +:+ ").".

(** [main]; [pergunta] is the value given to [--pergunta], if any,
    [parsed] the table that [pd.read_csv] returns, and the result is the
    line printed. *)
Definition main (pergunta : option string) (parsed : DataFrame) : M string :=
  let question := lower (default default_pergunta pergunta) in
  df ← load_and_process_campaigns parsed;
  by_channel ← aggregate_by_channel df;
  if str_in "roas" question && str_in "canal" question
  then
    best ← get_best_channel_by_roas by_channel;
    mret (best_channel_line best.1 best.2)
  else mret unsupported.
End Main.

End Cli.

(** * Vocabulary of the statements *)

Import TextSplitter RagEngine.

(** ** Metrics *)

(** The float64 of an integer. *)
Definition F (z : Z) : float64 := Fin (inject_Z z).

(** [x == 0] *)
Definition is_zero (x : float64) : bool := feq x zero.

(** One entry of [np.where(d > 0, n / d, np.nan)]. *)
Definition guarded_ratio (n d : float64) : float64 :=
  if fgt d zero then fdiv n d else NaN.

(** The column that [derive_ratio] assigns. *)
Definition ratio_column (ns ds : list float64) : list float64 :=
  zip_with (fun (b : bool) v => if b then v else nan)
    (map (fun x => fgt x zero) ds) (zip_with fdiv ns ds).

(** The frame [load_and_process_campaigns] leaves behind. *)
Definition processed (parsed : DataFrame) (sp rv im cl cv : list float64)
  : DataFrame :=
  frame_set "ctr" (SFloat (ratio_column cl im))
    (frame_set "roas" (SFloat (ratio_column rv sp))
       (frame_set "cpa_BRL" (SFloat (ratio_column sp cv)) parsed)).

(** The values of the rows whose key is [u], in row order. *)
Fixpoint group_values {K} (keq : K -> K -> bool) (rows : list (K * float64))
    (u : K) : list float64 :=
  match rows with
  | [] => []
  | (k, x) :: rest =>
      if keq k u then x :: group_values keq rest u else group_values keq rest u
  end.

(** The sum of a column over the rows of channel [c]. *)
Definition group_total (chs : list string) (vals : list float64) (c : string)
  : float64 :=
  nansum (group_values String.eqb (zip chs vals) c).

Definition channel_keys (chs : list string) : list string :=
  group_keys String.eqb String.ltb (fun _ => true) chs.

Definition channel_sums (chs : list string) (vals : list float64) : list float64 :=
  group_sum String.eqb String.ltb (fun _ => true) chs vals.

(** The frame [aggregate_by_channel] builds. *)
Definition aggregated (chs : list string) (sp rv im cl cv : list float64)
  : DataFrame :=
  {| nrows := length (channel_keys chs);
     columns :=
       [("channel", SObj (channel_keys chs));
        ("spend_BRL", SFloat (channel_sums chs sp));
        ("revenue_BRL", SFloat (channel_sums chs rv));
        ("impressions", SFloat (channel_sums chs im));
        ("clicks", SFloat (channel_sums chs cl));
        ("conversions", SFloat (channel_sums chs cv));
        ("cpa_BRL", SFloat (ratio_column (channel_sums chs sp) (channel_sums chs cv)));
        ("roas", SFloat (ratio_column (channel_sums chs rv) (channel_sums chs sp)));
        ("ctr", SFloat (ratio_column (channel_sums chs cl) (channel_sums chs im)))] |}.

(** For comparison only, the rule the aggregation does not follow: pandas
    [mean] (NaN entries skipped) of the per-row ratios of a channel. *)
Definition nanmean (l : list float64) : float64 :=
  fdiv (nansum l)
    (F (Z.of_nat (length (filter (fun x => isnan x = false) l)))).

Definition mean_of_row_ratios (chs : list string) (ns ds : list float64)
    (c : string) : float64 :=
  nanmean (group_values String.eqb (zip chs (ratio_column ns ds)) c).

(** [m] changes no object other than [r]. *)
Definition touches_only {A} (r : nat) (m : M A) : Prop :=
  forall h x, x <> r -> (m h).2 !! x = h !! x.

(** ** Sample tables *)

Definition two_channels : DataFrame :=
  {| nrows := 3;
     columns := [("date", SObj ["2024-01-01"; "2024-01-01"; "2024-01-02"]);
                 ("channel", SObj ["Meta"; "Google"; "Google"]);
                 ("spend_BRL", SFloat [F 100; F 100; F 300]);
                 ("revenue_BRL", SFloat [F 150; F 400; F 300]);
                 ("impressions", SFloat [F 2000; F 1000; F 0]);
                 ("clicks", SFloat [F 40; F 50; F 0]);
                 ("conversions", SFloat [F 5; F 10; F 0])] |}.

(** The two records of the end-to-end scenario of the specification. *)
Definition scenario : DataFrame :=
  {| nrows := 2;
     columns := [("date", SObj ["2024-01-01"; "2024-01-01"]);
                 ("channel", SObj ["Google"; "Meta"]);
                 ("spend_BRL", SFloat [F 100; F 100]);
                 ("revenue_BRL", SFloat [F 400; F 150]);
                 ("impressions", SFloat [F 1000; F 2000]);
                 ("clicks", SFloat [F 50; F 40]);
                 ("conversions", SFloat [F 10; F 5])] |}.

Definition tied : DataFrame :=
  {| nrows := 3;
     columns := [("channel", SObj ["Email"; "Google"; "Meta"]);
                 ("roas", SFloat [F 2; F 4; F 4])] |}.

Definition undefined_ratios : DataFrame :=
  {| nrows := 2;
     columns := [("channel", SObj ["Email"; "Meta"]);
                 ("roas", SFloat [NaN; NaN])] |}.

(** ** Chunks *)

Definition sum_len (l : list string) : Z := foldr (fun d acc => (len d + acc)%Z) 0%Z l.

(** No space anywhere in [s]. *)
Fixpoint nospace (s : string) : bool :=
  match s with
  | EmptyString => true
  | String c rest => negb (Ascii.eqb c " ") && nospace rest
  end.

(** No space after the first character: nothing the splitter could cut at
    with its last separator. *)
Definition no_inner_space (c : string) : bool :=
  match c with
  | EmptyString => true
  | String _ rest => nospace rest
  end.

Definition interleave (ps : list string) : list string :=
  flat_map (fun q => [" "; q]) ps.

Definition fits (self : RecursiveCharacterTextSplitter) (c : string) : Prop :=
  (len c <= _chunk_size self)%Z.

Definition chunk_ok (self : RecursiveCharacterTextSplitter) (c : string) : Prop :=
  (len c <= _chunk_size self)%Z \/ no_inner_space c = true.


(** The chunks of a text under the splitter of [build_knowledge_base]. *)
Definition chunks_of (text : string) : list string :=
  match split_text splitter text with
  | inr chunks => chunks
  | inl _ => []
  end.

Definition documents_of (text : string) (meta : gmap string string)
  : list Document :=
  map (fun chunk => {| page_content := chunk; metadata := meta |}) (chunks_of text).

(** ** Engines and stores *)

(** Two stand-ins for embedding plus metric; they rank alike and score
    differently. *)
Definition length_distance (query text : string) : Q :=
  inject_Z (Z.abs (len query - len text)).

Definition doubled_distance (query text : string) : Q :=
  (2 * length_distance query text)%Q.

Definition demo_engine : MarketingRAG :=
  MarketingRAG_init "chroma_db" "sentence-transformers/all-MiniLM-L6-v2".

(** [self] once [vectorstore] holds the store of its own location. *)
Definition with_store (self : MarketingRAG) : MarketingRAG :=
  {| persist_directory := persist_directory self;
     embeddings := embeddings self;
     vectorstore := Some {| _persist_directory := persist_directory self |} |}.

Definition summary : string :=
  "Resumo: com base nos trechos acima, analise manualmente o melhor canal, "
  +:+ "campanha ou insight de marketing.".

Definition two_notes : gmap string (list Document) :=
  {[ "chroma_db" :=
       [ {| page_content := "CTR"; metadata := ∅ |};
         {| page_content := "ROAS is revenue over spend."; metadata := ∅ |} ] ]}.


(** ** Further vocabulary *)

Import Cli.

(** The counters [load_and_process_campaigns] coerces, in its order. *)
Definition counters : list string :=
  ["spend_BRL"; "revenue_BRL"; "impressions"; "clicks"; "conversions"].

(** A column that [astype(float)] cannot take: absent, or holding text. *)
Definition not_numeric (c : string) (v : DataFrame) : Prop :=
  frame_get c v = None \/ exists x l, frame_get c v = Some (SObj (x :: l)).

Definition derived : list string := ["cpa_BRL"; "roas"; "ctr"].

(** [a < b] on channel labels. *)
Definition label_lt (a b : string) : Prop := String.ltb a b = true.

Definition missing_columns : exn :=
  ValueError "DataFrame precisa conter colunas 'channel' e 'roas'.".

(** The running maximum of [argmax_from] is the largest entry of the part
    already read, at its position. *)
Definition argmax_inv (pre : list float64) (best : option (nat * float64)) : Prop :=
  match best with
  | None => Forall (fun x => isnan x = true) pre
  | Some (ib, b) =>
      pre !! ib = Some b /\ isnan b = false
      /\ Forall (fun x => isnan x = false -> fgt x b = false) pre
  end.

(** [s[n:]] *)
Fixpoint string_drop (n : nat) (s : string) : string :=
  match n, s with
  | O, _ => s
  | S k, EmptyString => EmptyString
  | S k, String _ rest => string_drop k rest
  end.

(** The result of [_split_text_with_regex] before pairing: a first piece,
    then separator and piece in turn. *)
Definition separated (sep : string) (qs : list string) : list string :=
  flat_map (fun q => [sep; q]) qs.

(** The chunks of pieces that fit one chunk together. *)
Definition whole (self : RecursiveCharacterTextSplitter) (pieces : list string)
  : list string :=
  match _join_docs self pieces "" with
  | Some doc => [doc]
  | None => []
  end.

(** The documents [build_knowledge_base] hands to the store. *)
Definition built_documents (texts : list string)
    (metadatas : option (list (gmap string string))) : list Document :=
  flat_map (fun p => documents_of p.1 p.2)
    (zip texts (match metadatas with
                | None => map (fun _ => ∅) texts
                | Some ms => ms
                end)).

(** A table whose conversions column holds text, and one without rows. *)
Definition text_conversions : DataFrame :=
  {| nrows := 2;
     columns := [("date", SObj ["2024-01-01"; "2024-01-02"]);
                 ("channel", SObj ["Google"; "Meta"]);
                 ("spend_BRL", SFloat [F 100; F 100]);
                 ("revenue_BRL", SFloat [F 400; F 150]);
                 ("impressions", SFloat [F 1000; F 2000]);
                 ("clicks", SFloat [F 50; F 40]);
                 ("conversions", SObj ["n/a"; "5"])] |}.

Definition no_rows : DataFrame :=
  {| nrows := 0;
     columns := [("date", SObj []);
                 ("channel", SObj []);
                 ("spend_BRL", SFloat []);
                 ("revenue_BRL", SFloat []);
                 ("impressions", SFloat []);
                 ("clicks", SFloat []);
                 ("conversions", SFloat [])] |}.

(** Stand-ins for the two float formats of [main]. *)
Definition two_decimals (x : float64) : string :=
  if feq x (F 4) then "4.00" else "?".

Definition float_repr (x : float64) : string := "?".

(** * Properties *)

(** ** The metric pipeline *)

Section Assoc.
Context {V : Type}.
Implicit Types (cols : list (string * V)).

Lemma assoc_get_set_eq c (s : V) cols : assoc_get c (assoc_set c s cols) = Some s.
Proof.
  induction cols as [|[c' s'] cols IH]; cbn.
  - rewrite String.eqb_refl. reflexivity.
  - destruct (String.eqb c c') eqn:E; cbn.
    + rewrite String.eqb_refl. reflexivity.
    + rewrite E. exact IH.
Qed.

Lemma assoc_get_set_ne c c' (s : V) cols :
  c <> c' -> assoc_get c (assoc_set c' s cols) = assoc_get c cols.
Proof.
  intros Hne. apply String.eqb_neq in Hne.
  induction cols as [|[c2 s2] cols IH]; cbn.
  - rewrite Hne. reflexivity.
  - destruct (String.eqb c' c2) eqn:E; cbn.
    + apply String.eqb_eq in E as <-. rewrite Hne. reflexivity.
    + destruct (String.eqb c c2); [reflexivity | exact IH].
Qed.

Lemma assoc_set_same c (s : V) cols :
  assoc_get c cols = Some s -> assoc_set c s cols = cols.
Proof.
  induction cols as [|[c' s'] cols IH]; cbn; [discriminate|].
  destruct (String.eqb c c') eqn:E.
  - apply String.eqb_eq in E as <-. intros [= ->]. reflexivity.
  - intros H. rewrite (IH H). reflexivity.
Qed.

Lemma assoc_set_Forall (P : string * V -> Prop) c s cols :
  P (c, s) -> Forall P cols -> Forall P (assoc_set c s cols).
Proof.
  intros Hs. induction 1 as [|[c' s'] cols Hx Hcols IH]; cbn.
  - constructor; [assumption | constructor].
  - destruct (String.eqb c c'); constructor; assumption.
Qed.

Lemma assoc_get_Forall (P : string * V -> Prop) c s cols :
  Forall P cols -> assoc_get c cols = Some s -> P (c, s).
Proof.
  induction 1 as [|[c' s'] cols Hx Hcols IH]; cbn; [discriminate|].
  destruct (String.eqb c c') eqn:E; [|exact IH].
  apply String.eqb_eq in E as <-. intros [= <-]. exact Hx.
Qed.
End Assoc.

Lemma frame_get_set_eq c s v : frame_get c (frame_set c s v) = Some s.
Proof. apply assoc_get_set_eq. Qed.

Lemma frame_get_set_ne c c' s v :
  c <> c' -> frame_get c (frame_set c' s v) = frame_get c v.
Proof. apply assoc_get_set_ne. Qed.

Lemma frame_set_same c s v : frame_get c v = Some s -> frame_set c s v = v.
Proof.
  intros H. destruct v as [n cols]. unfold frame_set. cbn in *.
  rewrite (assoc_set_same c s cols H). reflexivity.
Qed.

Lemma frame_wf_length c s v :
  frame_wf v -> frame_get c v = Some s -> Series_length s = nrows v.
Proof.
  intros Hwf Hget.
  exact (assoc_get_Forall (fun cs => Series_length cs.2 = nrows v) c s _ Hwf Hget).
Qed.

Lemma frame_set_wf c s v :
  Series_length s = nrows v -> frame_wf v -> frame_wf (frame_set c s v).
Proof.
  intros Hlen Hwf. unfold frame_wf, frame_set. cbn.
  apply (assoc_set_Forall (fun cs => Series_length cs.2 = nrows v)); assumption.
Qed.

Lemma bind_run {A B} (m : M A) (f : A -> M B) h :
  (m ≫= f) h = match m h with
               | (inl e, h') => (inl e, h')
               | (inr x, h') => f x h'
               end.
Proof. reflexivity. Qed.

Lemma getitem_run r c h v s :
  h !! r = Some v -> frame_get c v = Some s -> getitem r c h = (inr s, h).
Proof.
  intros Hr Hc. unfold getitem. rewrite bind_run. unfold deref. rewrite Hr.
  cbv beta iota. unfold ok. rewrite Hc. reflexivity.
Qed.

Lemma setitem_run r c s h v :
  h !! r = Some v -> Series_length s = nrows v ->
  setitem r c s h = (inr tt, <[r := frame_set c s v]> h).
Proof.
  intros Hr Hlen. unfold setitem. rewrite Hr, Hlen, Nat.eqb_refl. reflexivity.
Qed.

Lemma coerce_column_run r c h v xs :
  h !! r = Some v -> frame_wf v -> frame_get c v = Some (SFloat xs) ->
  coerce_column r c h = (inr tt, h).
Proof.
  intros Hr Hwf Hc. unfold coerce_column.
  rewrite bind_run, (getitem_run r c h v _ Hr Hc). cbn [astype_float].
  rewrite bind_run. cbn [lift ok].
  rewrite (setitem_run r c _ h v Hr (frame_wf_length c _ v Hwf Hc)).
  rewrite (frame_set_same c _ v Hc), (insert_id h r v Hr). reflexivity.
Qed.

Lemma ratio_column_length ns ds :
  length ns = length ds -> length (ratio_column ns ds) = length ds.
Proof.
  intros H. unfold ratio_column.
  rewrite length_zip_with, length_map, length_zip_with. lia.
Qed.

Lemma ratio_column_lookup ns ds i n d :
  ns !! i = Some n -> ds !! i = Some d ->
  ratio_column ns ds !! i = Some (guarded_ratio n d).
Proof.
  intros Hn Hd. unfold ratio_column.
  rewrite lookup_zip_with, list_lookup_fmap, Hd. cbn.
  rewrite lookup_zip_with, Hn. cbn. rewrite Hd. reflexivity.
Qed.

Lemma derive_ratio_run r out num den h v ns ds :
  h !! r = Some v -> frame_wf v ->
  frame_get num v = Some (SFloat ns) -> frame_get den v = Some (SFloat ds) ->
  derive_ratio r out num den h
  = (inr tt, <[r := frame_set out (SFloat (ratio_column ns ds)) v]> h).
Proof.
  intros Hr Hwf Hn Hd.
  pose proof (frame_wf_length _ _ _ Hwf Hn) as Ln.
  pose proof (frame_wf_length _ _ _ Hwf Hd) as Ld. cbn in Ln, Ld.
  unfold derive_ratio.
  rewrite bind_run, (getitem_run r den h v _ Hr Hd). cbn [Series_gt].
  rewrite bind_run. cbn [lift ok].
  rewrite bind_run, (getitem_run r num h v _ Hr Hn).
  rewrite bind_run, (getitem_run r den h v _ Hr Hd). cbn [Series_truediv].
  rewrite bind_run. cbn [lift ok].
  rewrite bind_run. cbn [lift np_where].
  rewrite length_map, length_zip_with.
  replace (length ds =? length ns `min` length ds)%nat with true
    by (symmetry; apply Nat.eqb_eq; lia).
  cbn [ok]. apply setitem_run; [assumption|].
  cbn. fold (ratio_column ns ds). rewrite ratio_column_length; lia.
Qed.

Lemma guarded_ratio_zero n d : is_zero d = true -> guarded_ratio n d = NaN.
Proof.
  unfold is_zero, guarded_ratio. destruct d as [| | |q]; cbn; try discriminate.
  unfold Qeqb, Qltb. rewrite <- (Qcompare_antisym q 0).
  destruct (q ?= 0)%Q; cbn; [reflexivity | discriminate..].
Qed.

Section Load.
Variables (parsed : DataFrame) (sp rv im cl cv : list float64).
Hypothesis wf : frame_wf parsed.
Hypothesis Hsp : frame_get "spend_BRL" parsed = Some (SFloat sp).
Hypothesis Hrv : frame_get "revenue_BRL" parsed = Some (SFloat rv).
Hypothesis Him : frame_get "impressions" parsed = Some (SFloat im).
Hypothesis Hcl : frame_get "clicks" parsed = Some (SFloat cl).
Hypothesis Hcv : frame_get "conversions" parsed = Some (SFloat cv).

Lemma load_and_process_campaigns_run h :
  load_and_process_campaigns parsed h
  = (inr (fresh (dom h)),
     <[fresh (dom h) := processed parsed sp rv im cl cv]> h).
Proof.
  pose proof (frame_wf_length _ _ _ wf Hsp) as Lsp.
  pose proof (frame_wf_length _ _ _ wf Hrv) as Lrv.
  pose proof (frame_wf_length _ _ _ wf Him) as Lim.
  pose proof (frame_wf_length _ _ _ wf Hcl) as Lcl.
  pose proof (frame_wf_length _ _ _ wf Hcv) as Lcv.
  cbn in Lsp, Lrv, Lim, Lcl, Lcv.
  unfold load_and_process_campaigns. rewrite bind_run. unfold new_frame. cbv zeta.
  set (df := fresh (dom h)). set (h0 := <[df := parsed]> h).
  assert (H0 : h0 !! df = Some parsed) by apply lookup_insert_eq.
  cbv beta iota. unfold ok.
  do 5 (rewrite bind_run; erewrite coerce_column_run by eassumption).
  rewrite bind_run.
  erewrite (derive_ratio_run df "cpa_BRL") by eassumption.
  set (v1 := frame_set "cpa_BRL" _ parsed).
  assert (wf1 : frame_wf v1).
  { apply frame_set_wf; [|assumption]. cbn. rewrite ratio_column_length; lia. }
  rewrite bind_run.
  erewrite (derive_ratio_run df "roas" "revenue_BRL" "spend_BRL" _ v1 rv sp);
    [|apply lookup_insert_eq|assumption
     |unfold v1; rewrite frame_get_set_ne by discriminate; assumption
     |unfold v1; rewrite frame_get_set_ne by discriminate; assumption].
  set (v2 := frame_set "roas" _ v1).
  assert (wf2 : frame_wf v2).
  { apply frame_set_wf; [|assumption]. cbn. rewrite ratio_column_length; lia. }
  rewrite bind_run.
  erewrite (derive_ratio_run df "ctr" "clicks" "impressions" _ v2 cl im);
    [|apply lookup_insert_eq|assumption
     |unfold v2, v1; rewrite !frame_get_set_ne by discriminate; assumption
     |unfold v2, v1; rewrite !frame_get_set_ne by discriminate; assumption].
  unfold h0. rewrite !insert_insert_eq. reflexivity.
Qed.
End Load.

(** C4.  On a parsed table whose five counters are numeric,
    [load_and_process_campaigns] returns normally, and in every row whose
    conversions are zero [cpa_BRL] is NaN; likewise [roas] is NaN where the
    spend is zero and [ctr] is NaN where the impressions are zero.  The
    quotient itself is computed for every row (it is an infinity or NaN at a
    zero denominator) and no exception comes of it: [np.where] puts NaN in
    its place. *)
Theorem zero_denominator_gives_nan parsed sp rv im cl cv h :
  frame_wf parsed ->
  frame_get "spend_BRL" parsed = Some (SFloat sp) ->
  frame_get "revenue_BRL" parsed = Some (SFloat rv) ->
  frame_get "impressions" parsed = Some (SFloat im) ->
  frame_get "clicks" parsed = Some (SFloat cl) ->
  frame_get "conversions" parsed = Some (SFloat cv) ->
  exists df h' v cpa roas ctr,
    load_and_process_campaigns parsed h = (inr df, h')
    /\ h' !! df = Some v
    /\ frame_get "cpa_BRL" v = Some (SFloat cpa)
    /\ frame_get "roas" v = Some (SFloat roas)
    /\ frame_get "ctr" v = Some (SFloat ctr)
    /\ forall i,
         (forall x, cv !! i = Some x -> is_zero x = true -> cpa !! i = Some NaN)
         /\ (forall x, sp !! i = Some x -> is_zero x = true -> roas !! i = Some NaN)
         /\ (forall x, im !! i = Some x -> is_zero x = true -> ctr !! i = Some NaN).
Proof.
  intros wf Hsp Hrv Him Hcl Hcv.
  pose proof (frame_wf_length _ _ _ wf Hsp) as Lsp.
  pose proof (frame_wf_length _ _ _ wf Hrv) as Lrv.
  pose proof (frame_wf_length _ _ _ wf Him) as Lim.
  pose proof (frame_wf_length _ _ _ wf Hcl) as Lcl.
  pose proof (frame_wf_length _ _ _ wf Hcv) as Lcv.
  cbn in Lsp, Lrv, Lim, Lcl, Lcv.
  eexists _, _, _, _, _, _.
  split; [apply (load_and_process_campaigns_run parsed sp rv im cl cv); assumption|].
  split; [apply lookup_insert_eq|].
  unfold processed.
  split; [rewrite !frame_get_set_ne by discriminate; apply frame_get_set_eq|].
  split; [rewrite !frame_get_set_ne by discriminate; apply frame_get_set_eq|].
  split; [apply frame_get_set_eq|].
  assert (Hrow : forall (ns ds : list float64) i x,
             length ns = length ds -> ds !! i = Some x -> is_zero x = true ->
             ratio_column ns ds !! i = Some NaN).
  { intros ns ds i x Hlen Hx Hz.
    destruct (lookup_lt_is_Some_2 ns i) as [n Hn].
    { rewrite Hlen. eapply lookup_lt_Some, Hx. }
    rewrite (ratio_column_lookup ns ds i n x Hn Hx), (guarded_ratio_zero n x Hz).
    reflexivity. }
  intros i. repeat split; intros x Hx Hz; eapply Hrow; eauto; lia.
Qed.

Lemma zero_denominator_gives_nan_witness :
  exists df h' v cpa roas ctr,
    load_and_process_campaigns two_channels ∅ = (inr df, h')
    /\ h' !! df = Some v
    /\ frame_get "cpa_BRL" v = Some (SFloat cpa)
    /\ frame_get "roas" v = Some (SFloat roas)
    /\ frame_get "ctr" v = Some (SFloat ctr)
    /\ forall i,
         (forall x, [F 5; F 10; F 0] !! i = Some x -> is_zero x = true ->
                    cpa !! i = Some NaN)
         /\ (forall x, [F 100; F 100; F 300] !! i = Some x -> is_zero x = true ->
                       roas !! i = Some NaN)
         /\ (forall x, [F 2000; F 1000; F 0] !! i = Some x -> is_zero x = true ->
                       ctr !! i = Some NaN).
Proof.
  apply (zero_denominator_gives_nan two_channels
           [F 100; F 100; F 300] [F 150; F 400; F 300] [F 2000; F 1000; F 0]
           [F 40; F 50; F 0] [F 5; F 10; F 0] ∅);
    first [reflexivity | repeat constructor].
Defined.

Section GroupLemmas.
Context {K : Type} (keq klt : K -> K -> bool) (notna : K -> bool).

Lemma acc_fold rows : forall accs,
  fold_left (fun accs kx => acc_add keq kx.1 kx.2 accs) rows accs
  = map (fun a => (a.1, fold_left nanadd (group_values keq rows a.1) a.2)) accs.
Proof.
  induction rows as [|[k x] rows IH]; intros accs.
  - cbn. induction accs as [|[u s] accs IHa]; [reflexivity|]. cbn. f_equal. exact IHa.
  - cbn [fold_left]. rewrite IH. unfold acc_add. rewrite map_map.
    apply map_ext. intros [u s]. cbn.
    destruct (keq k u); reflexivity.
Qed.

Lemma group_sum_totals ks vals :
  group_sum keq klt notna ks vals
  = map (fun u => fold_left nanadd (group_values keq (zip ks vals) u) zero)
      (group_keys keq klt notna ks).
Proof.
  unfold group_sum. rewrite acc_fold, !map_map. reflexivity.
Qed.

Lemma group_sum_length ks vals :
  length (group_sum keq klt notna ks vals) = length (group_keys keq klt notna ks).
Proof. rewrite group_sum_totals. apply length_map. Qed.
End GroupLemmas.

Lemma key_insert_In (k c : string) us :
  In c (key_insert String.eqb String.ltb k us) <-> c = k \/ In c us.
Proof.
  induction us as [|u us IH]; cbn.
  - intuition congruence.
  - destruct (String.eqb k u) eqn:E.
    + apply String.eqb_eq in E as ->. cbn. intuition congruence.
    + destruct (String.ltb k u); cbn; [intuition congruence|].
      rewrite IH. intuition congruence.
Qed.

Lemma group_keys_In c ks :
  In c (group_keys String.eqb String.ltb (fun _ => true) ks) <-> In c ks.
Proof.
  unfold group_keys.
  assert (H : forall us,
             In c (fold_left (fun us k => key_insert String.eqb String.ltb k us) ks us)
             <-> In c ks \/ In c us).
  { induction ks as [|k ks IH]; intros us; cbn.
    - intuition.
    - rewrite IH, key_insert_In. intuition congruence. }
  rewrite H. cbn. intuition.
Qed.

Lemma channel_sums_length chs vals :
  length (channel_sums chs vals) = length (channel_keys chs).
Proof. apply group_sum_length. Qed.

Lemma aggregate_by_channel_run df h v chs sp rv im cl cv :
  h !! df = Some v ->
  frame_get "channel" v = Some (SObj chs) ->
  frame_get "spend_BRL" v = Some (SFloat sp) ->
  frame_get "revenue_BRL" v = Some (SFloat rv) ->
  frame_get "impressions" v = Some (SFloat im) ->
  frame_get "clicks" v = Some (SFloat cl) ->
  frame_get "conversions" v = Some (SFloat cv) ->
  aggregate_by_channel df h
  = (inr (fresh (dom h)), <[fresh (dom h) := aggregated chs sp rv im cl cv]> h).
Proof.
  intros Hdf Hch Hsp Hrv Him Hcl Hcv.
  unfold aggregate_by_channel. rewrite bind_run. unfold deref. rewrite Hdf.
  cbv beta iota. unfold ok. rewrite bind_run.
  unfold groupby_agg_sum. rewrite Hch. cbn [agg_columns].
  rewrite Hsp, Hrv, Him, Hcl, Hcv. cbn [lift ok].
  fold (channel_keys chs). fold (channel_sums chs sp). fold (channel_sums chs rv).
  fold (channel_sums chs im). fold (channel_sums chs cl). fold (channel_sums chs cv).
  rewrite bind_run. unfold new_frame. cbv zeta beta iota. unfold ok.
  set (g := fresh (dom h)).
  set (v0 := {| nrows := _; columns := _ |}).
  assert (wf0 : frame_wf v0).
  { unfold frame_wf, v0. cbn. repeat constructor; cbn; apply channel_sums_length. }
  rewrite bind_run.
  erewrite (derive_ratio_run g "cpa_BRL" "spend_BRL" "conversions" _ v0);
    [|apply lookup_insert_eq|assumption|reflexivity|reflexivity].
  set (v1 := frame_set "cpa_BRL" _ v0).
  assert (wf1 : frame_wf v1).
  { apply frame_set_wf; [|assumption]. cbn.
    rewrite ratio_column_length; rewrite !channel_sums_length; reflexivity. }
  rewrite bind_run.
  erewrite (derive_ratio_run g "roas" "revenue_BRL" "spend_BRL" _ v1);
    [|apply lookup_insert_eq|assumption|reflexivity|reflexivity].
  set (v2 := frame_set "roas" _ v1).
  assert (wf2 : frame_wf v2).
  { apply frame_set_wf; [|assumption]. cbn.
    rewrite ratio_column_length; rewrite !channel_sums_length; reflexivity. }
  rewrite bind_run.
  erewrite (derive_ratio_run g "ctr" "clicks" "impressions" _ v2);
    [|apply lookup_insert_eq|assumption|reflexivity|reflexivity].
  rewrite !insert_insert_eq. reflexivity.
Qed.

Lemma channel_sums_lookup chs vals i c :
  channel_keys chs !! i = Some c ->
  channel_sums chs vals !! i = Some (group_total chs vals c).
Proof.
  intros H. unfold channel_sums. rewrite group_sum_totals.
  rewrite list_lookup_fmap. fold (channel_keys chs). rewrite H. reflexivity.
Qed.

(** C3.  [aggregate_by_channel] gives one row to every channel of the
    input, and in the row of channel [c] each ratio is the guarded quotient
    of the group's totals: [roas] is (sum of revenue) / (sum of spend) when
    the summed spend is positive and NaN otherwise, and [cpa_BRL] and [ctr]
    follow the same totals-then-divide rule.  The per-row ratios play no
    part in it, and the rule is not their mean: for spend 100 and 300 with
    revenue 400 and 300 the totals give 7/4 while the mean of the row ratios
    is 5/2. *)
Theorem channel_ratios_from_totals :
  (forall df h v chs sp rv im cl cv,
      h !! df = Some v ->
      frame_wf v ->
      frame_get "channel" v = Some (SObj chs) ->
      frame_get "spend_BRL" v = Some (SFloat sp) ->
      frame_get "revenue_BRL" v = Some (SFloat rv) ->
      frame_get "impressions" v = Some (SFloat im) ->
      frame_get "clicks" v = Some (SFloat cl) ->
      frame_get "conversions" v = Some (SFloat cv) ->
      exists g h' gv keys cpa roas ctr,
        aggregate_by_channel df h = (inr g, h')
        /\ h' !! g = Some gv
        /\ frame_get "channel" gv = Some (SObj keys)
        /\ frame_get "cpa_BRL" gv = Some (SFloat cpa)
        /\ frame_get "roas" gv = Some (SFloat roas)
        /\ frame_get "ctr" gv = Some (SFloat ctr)
        /\ (forall c, In c chs <-> In c keys)
        /\ forall i c, keys !! i = Some c ->
             roas !! i = Some (guarded_ratio (group_total chs rv c) (group_total chs sp c))
             /\ cpa !! i = Some (guarded_ratio (group_total chs sp c) (group_total chs cv c))
             /\ ctr !! i = Some (guarded_ratio (group_total chs cl c) (group_total chs im c)))
  /\ (forall n d, fgt d zero = true -> guarded_ratio n d = fdiv n d)
  /\ (exists chs sp rv c,
        guarded_ratio (group_total chs rv c) (group_total chs sp c)
        <> mean_of_row_ratios chs rv sp c).
Proof.
  split; [|split].
  - intros df h v chs sp rv im cl cv Hdf wf Hch Hsp Hrv Him Hcl Hcv.
    exists (fresh (dom h)), (<[fresh (dom h) := aggregated chs sp rv im cl cv]> h),
      (aggregated chs sp rv im cl cv), (channel_keys chs),
      (ratio_column (channel_sums chs sp) (channel_sums chs cv)),
      (ratio_column (channel_sums chs rv) (channel_sums chs sp)),
      (ratio_column (channel_sums chs cl) (channel_sums chs im)).
    split; [eapply aggregate_by_channel_run; eassumption|].
    split; [apply lookup_insert_eq|].
    do 4 (split; [reflexivity|]).
    split; [intros c; symmetry; apply group_keys_In|].
    intros i c Hi.
    repeat split; apply ratio_column_lookup; apply channel_sums_lookup; assumption.
  - intros n d Hd. unfold guarded_ratio. rewrite Hd. reflexivity.
  - exists ["Google"; "Google"], [F 100; F 300], [F 400; F 300], "Google".
    vm_compute. discriminate.
Qed.

Lemma channel_ratios_from_totals_witness :
  exists g h' gv keys cpa roas ctr,
    aggregate_by_channel 0 {[ 0%nat := two_channels ]} = (inr g, h')
    /\ h' !! g = Some gv
    /\ frame_get "channel" gv = Some (SObj keys)
    /\ frame_get "cpa_BRL" gv = Some (SFloat cpa)
    /\ frame_get "roas" gv = Some (SFloat roas)
    /\ frame_get "ctr" gv = Some (SFloat ctr)
    /\ (forall c, In c ["Meta"; "Google"; "Google"] <-> In c keys)
    /\ forall i c, keys !! i = Some c ->
         roas !! i
         = Some (guarded_ratio
                   (group_total ["Meta"; "Google"; "Google"] [F 150; F 400; F 300] c)
                   (group_total ["Meta"; "Google"; "Google"] [F 100; F 100; F 300] c))
         /\ cpa !! i
            = Some (guarded_ratio
                      (group_total ["Meta"; "Google"; "Google"] [F 100; F 100; F 300] c)
                      (group_total ["Meta"; "Google"; "Google"] [F 5; F 10; F 0] c))
         /\ ctr !! i
            = Some (guarded_ratio
                      (group_total ["Meta"; "Google"; "Google"] [F 40; F 50; F 0] c)
                      (group_total ["Meta"; "Google"; "Google"] [F 2000; F 1000; F 0] c)).
Proof.
  apply (proj1 channel_ratios_from_totals 0%nat {[ 0%nat := two_channels ]}
           two_channels ["Meta"; "Google"; "Google"]
           [F 100; F 100; F 300] [F 150; F 400; F 300] [F 2000; F 1000; F 0]
           [F 40; F 50; F 0] [F 5; F 10; F 0]);
    first [reflexivity | repeat constructor].
Defined.

Lemma touches_only_bind {A B} r (m : M A) (f : A -> M B) :
  touches_only r m -> (forall x, touches_only r (f x)) -> touches_only r (m ≫= f).
Proof.
  intros Hm Hf h x Hx. rewrite bind_run. specialize (Hm h x Hx).
  destruct (m h) as [[e|a] h1]; cbn in *; [assumption|].
  rewrite (Hf a h1 x Hx). assumption.
Qed.

Lemma touches_only_lift {A} r (e : except A) : touches_only r (lift e).
Proof. intros h x _. reflexivity. Qed.

Lemma touches_only_ret {A} r (a : A) : touches_only r (mret a).
Proof. intros h x _. reflexivity. Qed.

Lemma touches_only_getitem r r' c : touches_only r (getitem r' c).
Proof.
  apply touches_only_bind.
  - intros h x _. unfold deref. destruct (h !! r'); reflexivity.
  - intros v. destruct (frame_get c v); [apply touches_only_ret | apply touches_only_lift].
Qed.

Lemma touches_only_setitem r c s : touches_only r (setitem r c s).
Proof.
  intros h x Hx. unfold setitem. destruct (h !! r) as [v|]; [|reflexivity].
  destruct (_ =? _)%nat; [|reflexivity]. cbn. apply lookup_insert_ne. congruence.
Qed.

Lemma touches_only_derive_ratio r out num den :
  touches_only r (derive_ratio r out num den).
Proof.
  unfold derive_ratio.
  repeat (apply touches_only_bind; [first [apply touches_only_getitem | apply touches_only_lift]|intros ?]).
  apply touches_only_setitem.
Qed.

(** C10.  Whatever [aggregate_by_channel] does on a heap, returning or
    raising, every frame that was there is still there unchanged, the
    argument among them; the table it returns is a new object. *)
Theorem aggregate_leaves_input df h :
  (forall x v, h !! x = Some v -> (aggregate_by_channel df h).2 !! x = Some v)
  /\ (forall g, (aggregate_by_channel df h).1 = inr g -> h !! g = None).
Proof.
  unfold aggregate_by_channel. rewrite bind_run. unfold deref.
  destruct (h !! df) as [v|] eqn:Hdf; [|split; [auto | discriminate]].
  cbv beta iota. unfold ok. rewrite bind_run.
  destruct (groupby_agg_sum v "channel" _) as [e|g0]; cbn [lift];
    [split; [auto | discriminate]|].
  rewrite bind_run. unfold new_frame. cbv zeta beta iota. unfold ok.
  set (g := fresh (dom h)). set (h1 := <[g := g0]> h).
  assert (Hfresh : h !! g = None).
  { apply not_elem_of_dom. apply is_fresh. }
  set (rest := _ ≫= _).
  assert (Hrest : touches_only g rest).
  { unfold rest.
    repeat (apply touches_only_bind; [apply touches_only_derive_ratio|intros ?]).
    apply touches_only_ret. }
  split.
  - intros x xv Hx. rewrite (Hrest h1 x) by congruence.
    unfold h1. rewrite lookup_insert_ne by congruence. assumption.
  - assert (Hval : forall g', (rest h1).1 = inr g' -> g' = g).
    { unfold rest. rewrite bind_run.
      destruct (derive_ratio g "cpa_BRL" _ _ h1) as [[e|[]] h2]; [discriminate|].
      rewrite bind_run.
      destruct (derive_ratio g "roas" _ _ h2) as [[e|[]] h3]; [discriminate|].
      rewrite bind_run.
      destruct (derive_ratio g "ctr" _ _ h3) as [[e|[]] h4]; [discriminate|].
      intros g'. cbn. unfold ok. intros [= <-]. reflexivity. }
    intros g' Hg'. rewrite (Hval g' Hg'). exact Hfresh.
Qed.

Lemma aggregate_leaves_input_witness :
  (aggregate_by_channel 0 {[ 0%nat := two_channels ]}).2 !! 0%nat
  = Some two_channels.
Proof.
  apply (proj1 (aggregate_leaves_input 0 {[ 0%nat := two_channels ]})).
  reflexivity.
Defined.

Lemma argmax_from_all_nan l : forall i,
  Forall (fun x => isnan x = true) l -> argmax_from i None l = None.
Proof.
  induction l as [|x l IH]; intros i Hl; [reflexivity|].
  apply Forall_cons in Hl as [Hx Hl]. cbn. rewrite Hx. apply IH, Hl.
Qed.

Lemma has_column_true c v s : frame_get c v = Some s -> has_column c v = true.
Proof. unfold has_column. intros ->. reflexivity. Qed.

(** C6.  On a table without rows, or one whose [roas] column is NaN in
    every row, [get_best_channel_by_roas] raises: the missing-column check,
    [idxmax] on an empty column, or [loc] on the NA label that [idxmax]
    gives for an all-NaN column.  No value is returned. *)
Theorem best_channel_rejects_degenerate df h v :
  h !! df = Some v ->
  (frame_wf v /\ nrows v = 0%nat)
  \/ (exists roas, frame_get "roas" v = Some (SFloat roas)
                   /\ Forall (fun x => isnan x = true) roas) ->
  raises (get_best_channel_by_roas df h).1.
Proof.
  intros Hdf Hdeg. unfold get_best_channel_by_roas, raises.
  rewrite bind_run. unfold deref. rewrite Hdf. cbv beta iota. unfold ok.
  destruct (negb (has_column "channel" v) || negb (has_column "roas" v)) eqn:Hcols;
    [eexists; reflexivity|].
  apply orb_false_iff in Hcols as [_ Hroas]. apply negb_false_iff in Hroas.
  unfold has_column in Hroas.
  destruct (frame_get "roas" v) as [s|] eqn:Hs; [clear Hroas|discriminate].
  rewrite bind_run, (getitem_run df "roas" h v s Hdf Hs).
  assert (Hs' : (exists e, idxmax s = inl e) \/ idxmax s = inr None).
  { destruct Hdeg as [[wf Hn]|(roas & Hr & Hnan)].
    - pose proof (frame_wf_length _ _ _ wf Hs) as Hlen. rewrite Hn in Hlen.
      left. destruct s as [l|l]; [eexists; reflexivity|].
      destruct l; [eexists; reflexivity | discriminate].
    - injection Hr as ->. destruct roas as [|x roas]; [left; eexists; reflexivity|].
      right. cbn [idxmax]. rewrite argmax_from_all_nan by assumption. reflexivity. }
  rewrite bind_run. cbn [lift].
  destruct Hs' as [[e ->]| ->]; [eexists; reflexivity|].
  rewrite bind_run. unfold deref. rewrite Hdf. cbv beta iota. unfold ok.
  rewrite bind_run. cbn. eexists; reflexivity.
Qed.

Lemma best_channel_rejects_degenerate_witness :
  raises (get_best_channel_by_roas 0 {[ 0%nat := undefined_ratios ]}).1.
Proof.
  apply (best_channel_rejects_degenerate 0 {[ 0%nat := undefined_ratios ]}
           undefined_ratios); [reflexivity|].
  right. exists [NaN; NaN]. split; [reflexivity | repeat constructor].
Defined.

Lemma fgt_total x m :
  isnan x = false -> isnan m = false ->
  fgt x m = false -> feq x m = false -> fgt m x = true.
Proof.
  destruct x as [| | |a], m as [| | |b]; cbn; try congruence.
  unfold Qltb, Qeqb. rewrite <- (Qcompare_antisym a b).
  destruct (a ?= b)%Q; cbn; congruence.
Qed.

Lemma argmax_from_keep m l : forall j i,
  isnan m = false ->
  Forall (fun x => isnan x = false -> fgt x m = false) l ->
  argmax_from j (Some (i, m)) l = Some i.
Proof.
  induction l as [|x l IH]; intros j i Hm Hl; [reflexivity|].
  apply Forall_cons in Hl as [Hx Hl]. cbn.
  destruct (isnan x) eqn:Ex; [apply IH; assumption|].
  rewrite (Hx eq_refl). apply IH; assumption.
Qed.

Lemma argmax_from_first m post pre : forall i best,
  isnan m = false ->
  Forall (fun x => isnan x = false -> fgt m x = true) pre ->
  Forall (fun x => isnan x = false -> fgt x m = false) post ->
  match best with
  | None => True
  | Some (_, b) => fgt m b = true
  end ->
  argmax_from i best (pre ++ m :: post) = Some (i + length pre)%nat.
Proof.
  induction pre as [|x pre IH]; intros i best Hm Hpre Hpost Hbest.
  - cbn. rewrite Hm, Nat.add_0_r.
    destruct best as [[ib b]|]; [rewrite Hbest|]; apply argmax_from_keep; assumption.
  - apply Forall_cons in Hpre as [Hx Hpre]. cbn [app argmax_from length].
    replace (i + S (length pre))%nat with (S i + length pre)%nat by lia.
    destruct (isnan x) eqn:Ex; [apply IH; assumption|].
    specialize (Hx eq_refl).
    destruct best as [[ib b]|]; [|apply IH; assumption].
    destruct (fgt x b); apply IH; assumption.
Qed.

Lemma row_lookup c s i x (cols : list (string * Series)) :
  assoc_get c cols = Some s -> Series_iloc s i = Some x ->
  assoc_get c (omap (fun cs => pair cs.1 <$> Series_iloc cs.2 i) cols) = Some x.
Proof.
  induction cols as [|[c' s'] cols IH]; cbn; [discriminate|].
  destruct (String.eqb c c') eqn:E.
  - intros [= ->] Hx. rewrite Hx. cbn. rewrite E. reflexivity.
  - intros Hs Hx. destruct (Series_iloc s' i); cbn; [rewrite E|]; apply IH; assumption.
Qed.

(** C9.  When row [i] holds the largest [roas] of the table (NaN entries
    aside) and no earlier row equals it, [get_best_channel_by_roas] returns
    the channel and ratio of row [i]: among several rows that share the
    maximum, the first one in row order. *)
Theorem best_channel_first_maximum df h v chs roas i c m :
  h !! df = Some v ->
  frame_wf v ->
  frame_get "channel" v = Some (SObj chs) ->
  frame_get "roas" v = Some (SFloat roas) ->
  chs !! i = Some c ->
  roas !! i = Some m ->
  isnan m = false ->
  (forall j x, roas !! j = Some x -> isnan x = false -> fgt x m = false) ->
  (forall j x, (j < i)%nat -> roas !! j = Some x -> isnan x = false ->
               feq x m = false) ->
  get_best_channel_by_roas df h = (inr (CStr c, m), h).
Proof.
  intros Hdf wf Hch Hr Hc Hm Hnan Hmax Hfirst.
  assert (Hidx : idxmax (SFloat roas) = inr (Some i)).
  { assert (Hsplit : roas = take i roas ++ m :: drop (S i) roas)
      by (symmetry; apply take_drop_middle; assumption).
    destruct roas as [|r0 roas']; [discriminate|]. cbn [idxmax]. unfold ok.
    do 2 f_equal. rewrite Hsplit at 1.
    rewrite (argmax_from_first m _ _ 0 None Hnan); [| |trivial..].
    - rewrite length_take. apply lookup_lt_Some in Hm. f_equal. lia.
    - apply Forall_forall. intros x Hx Ex.
      apply list_elem_of_lookup in Hx as [j Hj].
      apply lookup_take_Some in Hj as [Hj Hlt].
      apply fgt_total; eauto.
    - apply Forall_forall. intros x Hx Ex.
      apply list_elem_of_lookup in Hx as [j Hj].
      rewrite lookup_drop in Hj. eauto. }
  unfold get_best_channel_by_roas.
  rewrite bind_run. unfold deref. rewrite Hdf. cbv beta iota. unfold ok.
  rewrite (has_column_true _ _ _ Hch), (has_column_true _ _ _ Hr). cbn [negb orb].
  rewrite bind_run, (getitem_run df "roas" h v _ Hdf Hr).
  rewrite bind_run, Hidx. cbn [lift].
  rewrite bind_run. rewrite Hdf. cbv beta iota.
  rewrite bind_run. cbn [lift loc].
  pose proof (frame_wf_length _ _ _ wf Hr) as Hlen. cbn in Hlen.
  replace (i <? nrows v)%nat with true
    by (symmetry; apply Nat.ltb_lt; rewrite <- Hlen; eapply lookup_lt_Some, Hm).
  unfold ok. rewrite bind_run. unfold row_getitem.
  rewrite (row_lookup "channel" (SObj chs) i (CStr c)); [|assumption|cbn; rewrite Hc; reflexivity].
  cbn [lift]. unfold ok. rewrite bind_run.
  rewrite (row_lookup "roas" (SFloat roas) i (CFloat m)); [|assumption|cbn; rewrite Hm; reflexivity].
  reflexivity.
Qed.

Lemma best_channel_first_maximum_witness :
  get_best_channel_by_roas 0 {[ 0%nat := tied ]}
  = (inr (CStr "Google", F 4), {[ 0%nat := tied ]}).
Proof.
  apply (best_channel_first_maximum 0 {[ 0%nat := tied ]} tied
           ["Email"; "Google"; "Meta"] [F 2; F 4; F 4] 1 "Google" (F 4)).
  - reflexivity.
  - repeat constructor.
  - reflexivity.
  - reflexivity.
  - reflexivity.
  - reflexivity.
  - reflexivity.
  - intros j x Hj _. destruct j as [|[|[|j]]]; simpl in Hj; try discriminate;
      injection Hj as <-; reflexivity.
  - intros j x Hlt Hj _. destruct j as [|j]; [|lia].
    simpl in Hj. injection Hj as <-. reflexivity.
Defined.

(** The analytics path of [cli.py] on the scenario table: Google, 4.0. *)
Example scenario_best_channel :
  ((df ← load_and_process_campaigns scenario;
    by_channel ← aggregate_by_channel df;
    get_best_channel_by_roas by_channel) ∅).1
  = inr (CStr "Google", F 4).
Proof. reflexivity. Qed.

(** ** The text splitter *)

Local Open Scope Z_scope.

Lemma len_nonneg s : 0 <= len s.
Proof. unfold len. lia. Qed.

Lemma len_append a b : len (a +:+ b) = len a + len b.
Proof.
  unfold len. induction a as [|c a IH]; [reflexivity|].
  change (String c a +:+ b) with (String c (a +:+ b)).
  cbn [String.length]. lia.
Qed.

Lemma sum_len_nonneg l : 0 <= sum_len l.
Proof. induction l as [|d l IH]; simpl; [lia|]. pose proof (len_nonneg d). lia. Qed.

Lemma sum_len_app l1 l2 : sum_len (l1 ++ l2) = sum_len l1 + sum_len l2.
Proof. induction l1 as [|d l1 IH]; simpl; lia. Qed.

Lemma len_join_empty l : len (join "" l) = sum_len l.
Proof.
  induction l as [|d l IH]; [reflexivity|].
  destruct l as [|d' l'].
  - simpl. lia.
  - change (join "" (d :: d' :: l')) with (d +:+ "" +:+ join "" (d' :: l')).
    rewrite !len_append, IH. simpl. unfold len at 2. simpl. lia.
Qed.

Lemma len_lstrip s : len (lstrip s) <= len s.
Proof.
  induction s as [|c s IH]; simpl; [lia|].
  destruct (isspace c); [|lia]. unfold len in *. simpl. lia.
Qed.

Lemma len_rstrip s : len (rstrip s) <= len s.
Proof.
  induction s as [|c s IH]; simpl; [lia|].
  destruct (rstrip s) eqn:E.
  - destruct (isspace c); unfold len in *; simpl in *; lia.
  - unfold len in *; simpl in *; lia.
Qed.

Lemma len_strip s : len (strip s) <= len s.
Proof. unfold strip. pose proof (len_rstrip (lstrip s)). pose proof (len_lstrip s). lia. Qed.

Section Merge.
Variable self : RecursiveCharacterTextSplitter.
Hypothesis overlap_nonneg : 0 <= _chunk_overlap self.

Lemma join_docs_bound docs doc :
  _join_docs self docs "" = Some doc -> len doc <= sum_len docs.
Proof.
  unfold _join_docs. rewrite <- len_join_empty.
  destruct (_strip_whitespace self).
  - destruct (String.eqb _ _); [discriminate|]. intros [= <-]. apply len_strip.
  - destruct (String.eqb _ _); [discriminate|]. intros [= <-]. lia.
Qed.

Lemma pop_loop_spec _len cur :
  exists cur' , pop_loop self 0 _len (sum_len cur) cur = inr (sum_len cur', cur')
    /\ sum_len cur' <= _chunk_overlap self
    /\ (sum_len cur' + _len <= _chunk_size self \/ sum_len cur' = 0).
Proof.
  induction cur as [|d0 rest IH].
  - exists []. cbn.
    replace (_chunk_overlap self <? 0) with false by lia.
    rewrite andb_false_r. cbn. repeat split; [lia | right; lia].
  - cbn [pop_loop].
    destruct ((_chunk_overlap self <? sum_len (d0 :: rest))
              || ((_chunk_size self <? sum_len (d0 :: rest) + _len
                     + (if (0 <? length (d0 :: rest))%nat then 0 else 0))
                  && (0 <? sum_len (d0 :: rest)))) eqn:E.
    + destruct IH as (cur' & Hrun & Hov & Hfit).
      exists cur'. split; [|auto].
      rewrite <- Hrun. f_equal. cbn [sum_len foldr].
      destruct (1 <? length (d0 :: rest))%nat; fold (sum_len rest); lia.
    + exists (d0 :: rest). split; [reflexivity|].
      apply orb_false_iff in E as [E1 E2].
      apply Z.ltb_ge in E1. split; [lia|].
      apply andb_false_iff in E2 as [E2|E2].
      * left. apply Z.ltb_ge in E2.
        destruct (0 <? length (d0 :: rest))%nat; lia.
      * right. apply Z.ltb_ge in E2. pose proof (sum_len_nonneg (d0 :: rest)). lia.
Qed.


Lemma merge_loop_spec splits : forall docs cur,
  Forall (fun d => len d < _chunk_size self) splits ->
  Forall (fits self) docs ->
  sum_len cur <= _chunk_size self ->
  exists out, merge_loop self "" splits docs cur (sum_len cur) = inr out
    /\ Forall (fits self) out.
Proof.
  induction splits as [|d rest IH]; intros docs cur Hsmall Hdocs Hcur.
  - cbn [merge_loop]. destruct (_join_docs self cur "") as [doc|] eqn:E.
    + exists (docs ++ [doc]). split; [reflexivity|].
      apply Forall_app; split; [assumption|].
      constructor; [|constructor]. apply join_docs_bound in E. unfold fits. lia.
    + exists docs. auto.
  - apply Forall_cons in Hsmall as [Hd Hrest].
    assert (Hstep : forall docs' cur',
               Forall (fits self) docs' -> sum_len cur' + len d <= _chunk_size self ->
               exists out, merge_loop self "" rest docs' (cur' ++ [d])
                 (sum_len cur' + (len d + (if (1 <? length (cur' ++ [d]))%nat
                                            then len "" else 0))) = inr out
                 /\ Forall (fits self) out).
    { intros docs' cur' Hdocs' Hfit.
      assert (Heq : sum_len cur' + (len d + (if (1 <? length (cur' ++ [d]))%nat
                                             then len "" else 0))
                    = sum_len (cur' ++ [d])).
      { rewrite sum_len_app. change (len "") with 0. cbn [sum_len foldr].
        destruct (Nat.ltb 1 (length (cur' ++ [d]))); lia. }
      rewrite Heq. apply IH; [assumption..|]. rewrite sum_len_app. cbn. lia. }
    cbn [merge_loop]. change (len "") with 0 in *.
    destruct (_chunk_size self <? _) eqn:E.
    + destruct (0 <? length cur)%nat eqn:Ecur.
      * destruct (pop_loop_spec (len d) cur) as (cur' & Hrun & Hov & Hfit).
        rewrite Hrun.
        apply Hstep.
        -- destruct (_join_docs self cur "") as [doc|] eqn:Ej; [|assumption].
           apply Forall_app; split; [assumption|].
           constructor; [|constructor]. apply join_docs_bound in Ej. unfold fits. lia.
        -- destruct Hfit as [Hfit|Hfit]; lia.
      * apply Hstep; [assumption|].
        destruct cur; [cbn; lia | discriminate].
    + apply Hstep; [assumption|]. apply Z.ltb_ge in E.
      destruct (0 <? length cur)%nat; lia.
Qed.

Lemma merge_splits_spec splits :
  Forall (fun d => len d < _chunk_size self) splits ->
  0 <= _chunk_size self ->
  exists out, _merge_splits self splits "" = inr out /\ Forall (fits self) out.
Proof.
  intros Hs Hc. unfold _merge_splits.
  apply (merge_loop_spec splits [] []); [assumption | constructor | cbn; lia].
Qed.
End Merge.

Lemma nospace_snoc cur c :
  nospace cur = true -> c <> " "%char -> nospace (cur +:+ String c "") = true.
Proof.
  intros Hcur Hc. induction cur as [|a cur IH].
  - change ("" +:+ String c "") with (String c ""). cbn [nospace].
    apply Ascii.eqb_neq in Hc. rewrite Hc. reflexivity.
  - change (String a cur +:+ String c "") with (String a (cur +:+ String c "")).
    cbn [nospace] in *. apply andb_true_iff in Hcur as [-> Hcur]. cbn. auto.
Qed.

Lemma nospace_inner s : nospace s = true -> no_inner_space s = true.
Proof. destruct s as [|c s]; [reflexivity|]. cbn. intros [_ H]%andb_true_iff. exact H. Qed.

Lemma re_split_capture_space text : forall cur,
  nospace cur = true ->
  exists p ps, re_split_capture " " 0 cur text = p :: interleave ps
    /\ nospace p = true /\ Forall (fun q => nospace q = true) ps.
Proof.
  induction text as [|c rest IH]; intros cur Hcur.
  - exists cur, []. cbn. auto.
  - cbn [re_split_capture String.prefix].
    destruct (ascii_dec " " c) as [<-|Hne].
    + replace (String.prefix "" rest) with true by (destruct rest; reflexivity).
      destruct (IH "" eq_refl) as (p & ps & Hrun & Hp & Hps).
      exists cur, (p :: ps). cbn [String.length Nat.sub]. rewrite Hrun.
      split; [reflexivity|]. split; [assumption|]. constructor; assumption.
    + apply IH. apply nospace_snoc; congruence.
Qed.

Lemma pair_up_interleave ps : pair_up (interleave ps) = map (String " ") ps.
Proof. induction ps as [|q ps IH]; [reflexivity|]. cbn. f_equal. exact IH. Qed.

Lemma even_interleave p ps : Nat.even (length (p :: interleave ps)) = false.
Proof. induction ps as [|q ps IH]; [reflexivity|]. exact IH. Qed.

Lemma split_on_space_pieces text :
  Forall (fun s => no_inner_space s = true) (_split_text_with_regex text " " true).
Proof.
  unfold _split_text_with_regex. cbn [nonempty String.eqb negb].
  change (nonempty " ") with true. cbv iota.
  destruct (re_split_capture_space text "" eq_refl) as (p & ps & -> & Hp & Hps).
  rewrite even_interleave. cbn [tail hd]. rewrite pair_up_interleave.
  apply Forall_forall. intros s [_ Hin]%list_elem_of_filter.
  revert s Hin. apply Forall_forall. constructor.
  - apply nospace_inner, Hp.
  - apply Forall_fmap. eapply Forall_impl; [exact Hps|]. intros q Hq. exact Hq.
Qed.

Section Split.
Variable self : RecursiveCharacterTextSplitter.
Hypothesis overlap_nonneg : 0 <= _chunk_overlap self.
Hypothesis size_nonneg : 0 <= _chunk_size self.
Hypothesis keep : _keep_separator self = true.

Lemma fits_chunk_ok l : Forall (fits self) l -> Forall (chunk_ok self) l.
Proof. intros H. eapply Forall_impl; [exact H|]. intros c Hc. left. exact Hc. Qed.

Lemma flush_spec final good :
  Forall (chunk_ok self) final ->
  Forall (fun d => len d < _chunk_size self) good ->
  exists out,
    match good with
    | [] => ok final
    | _ => match _merge_splits self good "" with
           | inl e => inl e
           | inr merged_text => ok (final ++ merged_text)
           end
    end = inr out /\ Forall (chunk_ok self) out.
Proof.
  intros Hfinal Hgood.
  destruct (merge_splits_spec self overlap_nonneg good Hgood size_nonneg)
    as (merged & Hrun & Hm).
  destruct good as [|g good'].
  - exists final. auto.
  - rewrite Hrun. exists (final ++ merged). split; [reflexivity|].
    apply Forall_app. split; [assumption | apply fits_chunk_ok, Hm].
Qed.

Lemma split_loop_spec recur splits : forall final good,
  match recur with
  | None => Forall (fun s => no_inner_space s = true) splits
  | Some f => forall s, exists cs, f s = inr cs /\ Forall (chunk_ok self) cs
  end ->
  Forall (chunk_ok self) final ->
  Forall (fun d => len d < _chunk_size self) good ->
  exists out, split_loop self recur "" splits final good = inr out
    /\ Forall (chunk_ok self) out.
Proof.
  induction splits as [|s rest IH]; intros final good Hrec Hfinal Hgood.
  - cbn [split_loop]. apply flush_spec; assumption.
  - cbn [split_loop]. destruct (len s <? _chunk_size self) eqn:E.
    + apply IH; [|assumption|].
      * destruct recur; [assumption|]. exact (Forall_inv_tail Hrec).
      * apply Forall_app. split; [assumption|].
        constructor; [lia | constructor].
    + destruct (flush_spec final good Hfinal Hgood) as (out & -> & Hout).
      destruct recur as [f|].
      * destruct (Hrec s) as (cs & -> & Hcs).
        apply IH; [assumption| |constructor].
        apply Forall_app. split; assumption.
      * apply IH; [exact (Forall_inv_tail Hrec)| |constructor].
        apply Forall_app. split; [assumption|].
        constructor; [|constructor]. right. exact (Forall_inv Hrec).
Qed.

Lemma split_text_spec separators :
  Forall (fun s => s <> "") separators ->
  last separators = Some " " ->
  forall text, exists cs,
    _split_text self separators text = inr cs /\ Forall (chunk_ok self) cs.
Proof.
  induction separators as [|_s rest IH]; intros Hne Hlast text; [discriminate|].
  apply Forall_cons in Hne as [Hs Hrest].
  cbn [_split_text]. apply String.eqb_neq in Hs. rewrite Hs.
  destruct rest as [|r rest'].
  - injection Hlast as ->.
    assert (Hgoal : exists cs, split_with self " " None text = inr cs
                               /\ Forall (chunk_ok self) cs).
    { unfold split_with. rewrite keep.
      apply split_loop_spec; [apply split_on_space_pieces | constructor..]. }
    destruct (re_search " " text); exact Hgoal.
  - specialize (IH Hrest Hlast).
    destruct (re_search _s text); [|apply IH].
    unfold split_with. rewrite keep.
    apply split_loop_spec; [exact IH | constructor..].
Qed.
End Split.

Lemma split_text_splitter text :
  exists chunks, split_text splitter text = inr chunks
    /\ Forall (chunk_ok splitter) chunks.
Proof.
  unfold split_text. apply split_text_spec; cbn; try lia; try reflexivity.
  repeat constructor; discriminate.
Qed.

Lemma split_text_chunks_of text : split_text splitter text = inr (chunks_of text).
Proof.
  unfold chunks_of. destruct (split_text_splitter text) as (chunks & -> & _).
  reflexivity.
Qed.



Local Close Scope Z_scope.

(** ** The retrieval engine *)

(** C1 fails as stated: with nothing persisted at ["chroma_db"], loading
    succeeds with an empty store, and a retrieval then returns no
    document. *)
Lemma load_on_empty_location_succeeds :
  (∅ : gmap string (list Document)) !! "chroma_db" = None
  /\ load_existing_knowledge_base (VS := chroma length_distance) demo_engine ∅
     = inr (with_store demo_engine, {[ "chroma_db" := [] ]})
  /\ retrieve (VS := chroma length_distance) (with_store demo_engine)
       "Qual canal teve melhor ROAS?" 4 {[ "chroma_db" := [] ]} = inr [].
Proof. repeat split. Qed.

(** C1, as amended.  [load_existing_knowledge_base] makes no check of its
    own: it raises exactly when the [Chroma] constructor does.  Chroma opens
    the collection of the location or creates it empty, so the call returns
    normally at every location, with [vectorstore] set; a location with
    nothing persisted then holds an empty collection. *)
Theorem load_opens_or_creates :
  (forall (VS : VectorStore) self d,
      raises (load_existing_knowledge_base self d)
      <-> raises (Chroma_init (embeddings self) (persist_directory self) d))
  /\ (forall distance self d,
        load_existing_knowledge_base (VS := chroma distance) self d
        = inr (with_store self,
               <[persist_directory self := default [] (d !! persist_directory self)]> d)).
Proof.
  split.
  - intros VS self d. unfold load_existing_knowledge_base, raises.
    destruct (Chroma_init _ _ d) as [e|[store d']].
    + split; intros _; eauto.
    + split; intros [e He]; discriminate.
  - reflexivity.
Qed.

Lemma load_opens_or_creates_witness :
  load_existing_knowledge_base (VS := chroma doubled_distance) demo_engine
    {[ "elsewhere" := [] ]}
  = inr (with_store demo_engine, {[ "elsewhere" := []; "chroma_db" := [] ]}).
Proof.
  rewrite (proj2 load_opens_or_creates doubled_distance demo_engine
             {[ "elsewhere" := [] ]}).
  reflexivity.
Defined.

(** C2.  Before [build_knowledge_base] or [load_existing_knowledge_base]
    has run, [retrieve] raises the not-initialized [ValueError] for every
    query and [k], and so does [answer].  Once either has returned,
    [vectorstore] is set and [retrieve] is the store's [similarity_search];
    with Chroma it never raises the not-initialized error. *)
Theorem retrieve_guard :
  (forall (VS : VectorStore) pd model query k d,
      retrieve (MarketingRAG_init pd model) query k d = inl not_initialized
      /\ answer (MarketingRAG_init pd model) query k d = inl not_initialized)
  /\ (forall (VS : VectorStore) self self' d d',
        (exists texts metadatas,
            build_knowledge_base self texts metadatas d = inr (self', d'))
        \/ load_existing_knowledge_base self d = inr (self', d') ->
        exists store, vectorstore self' = Some store
          /\ forall query k d'',
               retrieve self' query k d'' = similarity_search store query k d'')
  /\ (forall distance self self' d d',
        (exists texts metadatas,
            build_knowledge_base (VS := chroma distance) self texts metadatas d
            = inr (self', d'))
        \/ load_existing_knowledge_base (VS := chroma distance) self d
           = inr (self', d') ->
        forall query k d'',
          retrieve (VS := chroma distance) self' query k d'' <> inl not_initialized).
Proof.
  assert (Hset : forall (VS : VectorStore) self self' d d',
             (exists texts metadatas,
                 build_knowledge_base self texts metadatas d = inr (self', d'))
             \/ load_existing_knowledge_base self d = inr (self', d') ->
             exists store, vectorstore self' = Some store).
  { intros VS self self' d d' [(texts & metadatas & H)|H].
    - unfold build_knowledge_base in H.
      destruct (chunk_documents _) as [e|docs]; [discriminate|].
      destruct (Chroma_from_documents _ _ _ d) as [e|[store d1]]; [discriminate|].
      injection H as <- _. eexists. reflexivity.
    - unfold load_existing_knowledge_base in H.
      destruct (Chroma_init _ _ d) as [e|[store d1]]; [discriminate|].
      injection H as <- _. eexists. reflexivity. }
  split; [|split].
  - intros. split; reflexivity.
  - intros VS self self' d d' H.
    destruct (Hset VS self self' d d' H) as [store Hstore].
    exists store. split; [assumption|]. intros. unfold retrieve. rewrite Hstore. reflexivity.
  - intros distance self self' d d' H query k d''.
    destruct (Hset _ self self' d d' H) as [store Hstore].
    unfold retrieve. rewrite Hstore. unfold similarity_search. cbn.
    destruct (k <=? 0)%Z; discriminate.
Qed.

Lemma retrieve_guard_witness :
  exists self' d',
    build_knowledge_base (VS := chroma length_distance) demo_engine
      ["ROAS is revenue over spend."; "CTR is clicks over impressions."] None ∅
    = inr (self', d')
    /\ retrieve (VS := chroma length_distance) self' "What is CTR?" 4 d'
       <> inl not_initialized.
Proof.
  eexists _, _. split; [reflexivity|].
  eapply (proj2 (proj2 retrieve_guard) length_distance demo_engine _ ∅ _).
  left. exists ["ROAS is revenue over spend."; "CTR is clicks over impressions."], None.
  reflexivity.
Defined.

(** C7, as amended.  When retrieval succeeds, [answer] returns one text:
    ["Pergunta: "] and the query, the retrieved chunk texts joined in ranked
    order by a line of three dashes, and a fixed closing sentence.  It
    carries no list of results and no scores: two retrievals that return
    the same chunk texts in the same order give the same answer, whatever
    their metadata and scores. *)
Theorem answer_is_text :
  (forall (VS : VectorStore) self query k d docs,
      retrieve self query k d = inr docs ->
      answer self query k d
      = inr ("Pergunta: " +:+ query +:+ LF +:+ LF
             +:+ "Contexto relevante encontrado:" +:+ LF
             +:+ join (LF +:+ "---" +:+ LF) (map page_content docs)
             +:+ LF +:+ LF +:+ summary))
  /\ (forall (VS VS' : VectorStore) self self' query k k' d d' docs docs',
        retrieve (VS := VS) self query k d = inr docs ->
        retrieve (VS := VS') self' query k' d' = inr docs' ->
        map page_content docs = map page_content docs' ->
        answer (VS := VS) self query k d = answer (VS := VS') self' query k' d').
Proof.
  assert (Htext : forall (VS : VectorStore) self query k d docs,
             retrieve self query k d = inr docs ->
             answer self query k d
             = inr ("Pergunta: " +:+ query +:+ LF +:+ LF
                    +:+ "Contexto relevante encontrado:" +:+ LF
                    +:+ join (LF +:+ "---" +:+ LF) (map page_content docs)
                    +:+ LF +:+ LF +:+ summary)).
  { intros VS self query k d docs H. unfold answer. rewrite H. reflexivity. }
  split; [exact Htext|].
  intros VS VS' self self' query k k' d d' docs docs' H H' Hsame.
  rewrite (Htext VS self query k d docs H), (Htext VS' self' query k' d' docs' H').
  rewrite Hsame. reflexivity.
Qed.

Lemma answer_is_text_witness :
  answer (VS := chroma length_distance) (with_store demo_engine) "What is CTR?" 4 two_notes
  = inr ("Pergunta: What is CTR?" +:+ LF +:+ LF
         +:+ "Contexto relevante encontrado:" +:+ LF
         +:+ "CTR" +:+ LF +:+ "---" +:+ LF +:+ "ROAS is revenue over spend."
         +:+ LF +:+ LF +:+ summary).
Proof.
  exact (proj1 answer_is_text (chroma length_distance) (with_store demo_engine)
           "What is CTR?" 4%Z two_notes _ eq_refl).
Defined.

(** C7 fails as stated: two stores that rank alike and score differently
    give the same answer, so the scores are not part of it. *)
Lemma answer_drops_scores :
  answer (VS := chroma length_distance) (with_store demo_engine) "What is CTR?" 4 two_notes
  = answer (VS := chroma doubled_distance) (with_store demo_engine) "What is CTR?" 4 two_notes
  /\ similarity_search_with_score (VectorStore := chroma length_distance)
       {| _persist_directory := "chroma_db" |} "What is CTR?" 4 two_notes
     <> similarity_search_with_score (VectorStore := chroma doubled_distance)
          {| _persist_directory := "chroma_db" |} "What is CTR?" 4 two_notes.
Proof. split; [reflexivity | discriminate]. Qed.

Lemma zip_long_left {A B} (l extra : list A) (ms : list B) :
  (length ms <= length l)%nat -> zip (l ++ extra) ms = zip l ms.
Proof.
  revert ms. induction l as [|x l IH]; intros [|m ms] Hlen; cbn in *;
    try reflexivity; try lia.
  - destruct extra; reflexivity.
  - f_equal. apply IH. lia.
Qed.

Lemma zip_take_left {A B} (l : list A) (ms : list B) :
  zip l ms = zip (take (length ms) l) ms.
Proof.
  revert ms. induction l as [|x l IH]; intros [|m ms]; cbn; try reflexivity.
  f_equal. apply IH.
Qed.

Lemma chunk_documents_run pairs :
  chunk_documents pairs = inr (flat_map (fun p => documents_of p.1 p.2) pairs).
Proof.
  induction pairs as [|[text meta] pairs IH]; [reflexivity|].
  cbn [chunk_documents]. rewrite split_text_chunks_of, IH. reflexivity.
Qed.

Lemma build_knowledge_base_chroma distance self texts metadatas d docs :
  docs = flat_map (fun p => documents_of p.1 p.2)
           (zip texts (match metadatas with
                       | None => map (fun _ => ∅) texts
                       | Some ms => ms
                       end)) ->
  build_knowledge_base (VS := chroma distance) self texts metadatas d
  = match docs with
    | [] => inl no_documents
    | _ :: _ =>
        inr (with_store self,
             <[persist_directory self :=
                 default [] (d !! persist_directory self) ++ docs]> d)
    end.
Proof.
  intros ->. unfold build_knowledge_base. rewrite chunk_documents_run.
  destruct (flat_map _ _); reflexivity.
Qed.

Lemma zip_empty_metadata (texts : list string) :
  flat_map (fun p : string * gmap string string => documents_of p.1 p.2)
    (zip texts (map (fun _ => ∅) texts))
  = flat_map (fun text => documents_of text ∅) texts.
Proof.
  induction texts as [|text texts IH]; [reflexivity|].
  cbn. rewrite IH. reflexivity.
Qed.

(** C8 fails as stated: with [metadatas = []], which is shorter than
    [texts], every text is dropped, no document is left to add, and the
    call raises Chroma's [ValueError]. *)
Lemma build_with_no_metadata_raises :
  (length ([] : list (gmap string string))
   < length ["ROAS is revenue over spend."])%nat
  /\ build_knowledge_base (VS := chroma length_distance) demo_engine
       ["ROAS is revenue over spend."] (Some []) ∅
     = inl no_documents.
Proof. split; [simpl; lia | reflexivity]. Qed.

(** C8, as amended.  With [metadatas] given, [zip] pairs texts and metadata
    up to the shorter list: texts beyond the length of [metadatas] have no
    effect on the call, which is the call on the first [len(metadatas)]
    texts.  The documents handed to Chroma are the chunks of the texts that
    have a metadata entry and nothing else: when there is at least one, the
    call returns and the collection gains exactly these; when there is
    none, as with [metadatas = []], Chroma raises.  With [metadatas]
    omitted, the chunks of every text are added, each with empty metadata,
    and the call raises only when no text leaves a chunk. *)
Theorem build_indexes_zipped_texts :
  (forall (VS : VectorStore) self texts extra metadatas d,
      (length metadatas <= length texts)%nat ->
      build_knowledge_base self (texts ++ extra) (Some metadatas) d
      = build_knowledge_base self texts (Some metadatas) d)
  /\ (forall distance self texts metadatas d docs,
        docs = flat_map (fun p => documents_of p.1 p.2)
                 (zip (take (length metadatas) texts) metadatas) ->
        (docs <> [] ->
         build_knowledge_base (VS := chroma distance) self texts (Some metadatas) d
         = inr (with_store self,
                <[persist_directory self :=
                    default [] (d !! persist_directory self) ++ docs]> d))
        /\ (docs = [] ->
            build_knowledge_base (VS := chroma distance) self texts (Some metadatas) d
            = inl no_documents))
  /\ (forall distance self texts d docs,
        docs = flat_map (fun text => documents_of text ∅) texts ->
        (docs <> [] ->
         build_knowledge_base (VS := chroma distance) self texts None d
         = inr (with_store self,
                <[persist_directory self :=
                    default [] (d !! persist_directory self) ++ docs]> d))
        /\ (docs = [] ->
            build_knowledge_base (VS := chroma distance) self texts None d
            = inl no_documents)).
Proof.
  split; [|split].
  - intros VS self texts extra metadatas d Hlen. unfold build_knowledge_base.
    rewrite zip_long_left by assumption. reflexivity.
  - intros distance self texts metadatas d docs Hdocs.
    rewrite <- zip_take_left in Hdocs.
    rewrite (build_knowledge_base_chroma distance self texts (Some metadatas) d docs Hdocs).
    destruct docs; split; intros H; congruence.
  - intros distance self texts d docs Hdocs.
    rewrite <- zip_empty_metadata in Hdocs.
    rewrite (build_knowledge_base_chroma distance self texts None d docs Hdocs).
    destruct docs; split; intros H; congruence.
Qed.

Lemma build_indexes_zipped_texts_witness :
  build_knowledge_base (VS := chroma length_distance) demo_engine
    (["ROAS is revenue over spend."] ++ ["CTR is clicks over impressions."])
    (Some [{[ "source" := "glossary" ]}]) ∅
  = inr (with_store demo_engine,
         {[ "chroma_db" :=
              [ {| page_content := "ROAS is revenue over spend.";
                   metadata := {[ "source" := "glossary" ]} |} ] ]}).
Proof.
  rewrite (proj1 build_indexes_zipped_texts (chroma length_distance) demo_engine
             ["ROAS is revenue over spend."] ["CTR is clicks over impressions."]
             [{[ "source" := "glossary" ]}] ∅); [|simpl; lia].
  rewrite (proj1 (proj1 (proj2 build_indexes_zipped_texts) length_distance demo_engine
                    ["ROAS is revenue over spend."] [{[ "source" := "glossary" ]}] ∅
                    [ {| page_content := "ROAS is revenue over spend.";
                         metadata := {[ "source" := "glossary" ]} |} ]
                    eq_refl));
    [reflexivity | discriminate].
Defined.

(** * Further properties *)

(** ** The metric pipeline *)

Lemma frame_set_nrows c s v : nrows (frame_set c s v) = nrows v.
Proof. reflexivity. Qed.

Lemma coerce_column_bad df c h v :
  h !! df = Some v -> not_numeric c v ->
  exists e, coerce_column df c h = (inl e, h).
Proof.
  intros Hdf Hbad. unfold coerce_column. rewrite bind_run.
  destruct Hbad as [Hnone|(x & l & Hobj)].
  - unfold getitem. rewrite bind_run. unfold deref. rewrite Hdf. cbv beta iota.
    unfold ok. rewrite Hnone. eexists. reflexivity.
  - rewrite (getitem_run df c h v _ Hdf Hobj). rewrite bind_run.
    eexists. reflexivity.
Qed.

Lemma coerce_column_good df c h v :
  h !! df = Some v -> frame_wf v -> ~ not_numeric c v ->
  exists v', coerce_column df c h = (inr tt, <[df := v']> h)
    /\ frame_wf v' /\ nrows v' = nrows v
    /\ forall c2, c2 <> c -> frame_get c2 v' = frame_get c2 v.
Proof.
  intros Hdf wf Hgood. unfold not_numeric in Hgood.
  destruct (frame_get c v) as [[[|x l]|xs]|] eqn:Hc.
  - pose proof (frame_wf_length _ _ _ wf Hc) as Hlen. cbn in Hlen.
    exists (frame_set c (SFloat []) v). split; [|split; [|split]].
    + unfold coerce_column. rewrite bind_run, (getitem_run df c h v _ Hdf Hc).
      rewrite bind_run. cbn [astype_float lift ok].
      apply setitem_run; [assumption|]. cbn. exact Hlen.
    + apply frame_set_wf; [exact Hlen | assumption].
    + reflexivity.
    + intros c2 Hne. apply frame_get_set_ne. assumption.
  - exfalso. apply Hgood. right. eauto.
  - exists v. split; [|split; [|split]]; try reflexivity; try assumption.
    rewrite (insert_id h df v Hdf). eapply coerce_column_run; eassumption.
  - exfalso. apply Hgood. left. reflexivity.
Qed.

Lemma not_numeric_dec c v : not_numeric c v \/ ~ not_numeric c v.
Proof.
  unfold not_numeric. destruct (frame_get c v) as [[[|x l]|xs]|].
  - right. intros [H|(x & l & H)]; discriminate.
  - left. right. eauto.
  - right. intros [H|(x & l & H)]; discriminate.
  - left. left. reflexivity.
Qed.

Lemma not_numeric_agree c v v' :
  frame_get c v' = frame_get c v -> not_numeric c v -> not_numeric c v'.
Proof. unfold not_numeric. intros ->. trivial. Qed.

(** One coercion in front of the rest of the function. *)
Lemma coerce_then_raises {A} df c c0 (k : M A) h v :
  h !! df = Some v -> frame_wf v -> not_numeric c0 v ->
  (c = c0 \/
   forall v', frame_wf v' -> not_numeric c0 v' ->
              raises (k (<[df := v']> h)).1) ->
  raises ((coerce_column df c ≫= fun _ => k) h).1.
Proof.
  intros Hdf wf Hbad Hk. rewrite bind_run.
  destruct (not_numeric_dec c v) as [Hc|Hc].
  - destruct (coerce_column_bad df c h v Hdf Hc) as [e ->]. eexists. reflexivity.
  - destruct (coerce_column_good df c h v Hdf wf Hc) as (v' & -> & wf' & _ & Hsame).
    destruct Hk as [->|Hk]; [contradiction|].
    apply Hk; [assumption|].
    eapply not_numeric_agree; [|exact Hbad]. apply Hsame.
    intros ->. contradiction.
Qed.

Lemma load_raises_on_bad_counter parsed h c :
  frame_wf parsed ->
  In c counters ->
  not_numeric c parsed ->
  raises (load_and_process_campaigns parsed h).1.
Proof.
  intros wf Hin Hbad. unfold load_and_process_campaigns.
  rewrite bind_run. unfold new_frame. cbv zeta beta iota. unfold ok.
  set (df := fresh (dom h)).
  assert (Hstep : forall c' (k : M nat) h0 v,
             h0 !! df = Some v -> frame_wf v -> not_numeric c v ->
             (c = c' \/ (c <> c' /\
                forall v', frame_wf v' -> not_numeric c v' ->
                           raises (k (<[df := v']> h0)).1)) ->
             raises ((coerce_column df c' ≫= fun _ => k) h0).1).
  { intros c' k h0 v H0 wf0 Hb [->|[_ Hk]];
      eapply coerce_then_raises; eauto. }
  cbn in Hin.
  eapply Hstep; [apply lookup_insert_eq | assumption | assumption |].
  destruct (decide (c = "spend_BRL")) as [|N1]; [left; assumption|right; split; [assumption|]].
  intros v1 wf1 Hb1. rewrite insert_insert_eq.
  eapply Hstep; [apply lookup_insert_eq | assumption | assumption |].
  destruct (decide (c = "revenue_BRL")) as [|N2]; [left; assumption|right; split; [assumption|]].
  intros v2 wf2 Hb2. rewrite insert_insert_eq.
  eapply Hstep; [apply lookup_insert_eq | assumption | assumption |].
  destruct (decide (c = "impressions")) as [|N3]; [left; assumption|right; split; [assumption|]].
  intros v3 wf3 Hb3. rewrite insert_insert_eq.
  eapply Hstep; [apply lookup_insert_eq | assumption | assumption |].
  destruct (decide (c = "clicks")) as [|N4]; [left; assumption|right; split; [assumption|]].
  intros v4 wf4 Hb4. rewrite insert_insert_eq.
  eapply Hstep; [apply lookup_insert_eq | assumption | assumption |].
  left. intuition congruence.
Qed.

(** X1.  When one of the five counters is absent from the parsed table, or
    holds text, [load_and_process_campaigns] raises: the lookup or the
    coercion to float fails before any ratio is derived. *)
Theorem load_rejects_bad_counter parsed h c :
  frame_wf parsed ->
  In c counters ->
  not_numeric c parsed ->
  raises (load_and_process_campaigns parsed h).1.
Proof.
  intros wf Hin Hbad. eapply load_raises_on_bad_counter; eassumption.
Qed.


(** X2.  On a table with numeric counters, [load_and_process_campaigns]
    returns a new frame and leaves every frame of the heap as it was.  The
    new frame has the rows of the parsed table, every column other than
    [cpa_BRL], [roas] and [ctr] is the parsed one, and these three are float
    columns with one entry per row. *)
Theorem load_keeps_table parsed sp rv im cl cv h :
  frame_wf parsed ->
  frame_get "spend_BRL" parsed = Some (SFloat sp) ->
  frame_get "revenue_BRL" parsed = Some (SFloat rv) ->
  frame_get "impressions" parsed = Some (SFloat im) ->
  frame_get "clicks" parsed = Some (SFloat cl) ->
  frame_get "conversions" parsed = Some (SFloat cv) ->
  exists v,
    load_and_process_campaigns parsed h
    = (inr (fresh (dom h)), <[fresh (dom h) := v]> h)
    /\ h !! fresh (dom h) = None
    /\ frame_wf v
    /\ nrows v = nrows parsed
    /\ (forall c, ~ In c derived -> frame_get c v = frame_get c parsed)
    /\ (forall c, In c derived ->
          exists xs, frame_get c v = Some (SFloat xs) /\ length xs = nrows parsed).
Proof.
  intros wf Hsp Hrv Him Hcl Hcv.
  pose proof (frame_wf_length _ _ _ wf Hsp) as Lsp.
  pose proof (frame_wf_length _ _ _ wf Hrv) as Lrv.
  pose proof (frame_wf_length _ _ _ wf Him) as Lim.
  pose proof (frame_wf_length _ _ _ wf Hcl) as Lcl.
  pose proof (frame_wf_length _ _ _ wf Hcv) as Lcv.
  cbn in Lsp, Lrv, Lim, Lcl, Lcv.
  exists (processed parsed sp rv im cl cv).
  split; [apply load_and_process_campaigns_run; assumption|].
  split; [apply not_elem_of_dom, is_fresh|].
  unfold processed.
  split; [|split; [reflexivity|split]].
  - repeat (apply frame_set_wf; [cbn; rewrite ratio_column_length; lia|]).
    assumption.
  - intros c Hc. cbn in Hc.
    rewrite !frame_get_set_ne by (intros ->; tauto). reflexivity.
  - intros c [<-|[<-|[<-|[]]]].
    + eexists. split; [rewrite !frame_get_set_ne by discriminate; apply frame_get_set_eq|].
      rewrite ratio_column_length; lia.
    + eexists. split; [rewrite !frame_get_set_ne by discriminate; apply frame_get_set_eq|].
      rewrite ratio_column_length; lia.
    + eexists. split; [apply frame_get_set_eq|].
      rewrite ratio_column_length; lia.
Qed.

(** X3.  Row by row, each derived metric is numerator / denominator where
    the denominator is greater than zero and NaN everywhere else, so a
    negative or NaN denominator gives NaN as a zero one does. *)
Theorem load_ratio_rows parsed sp rv im cl cv h :
  frame_wf parsed ->
  frame_get "spend_BRL" parsed = Some (SFloat sp) ->
  frame_get "revenue_BRL" parsed = Some (SFloat rv) ->
  frame_get "impressions" parsed = Some (SFloat im) ->
  frame_get "clicks" parsed = Some (SFloat cl) ->
  frame_get "conversions" parsed = Some (SFloat cv) ->
  exists df h' v cpa roas ctr,
    load_and_process_campaigns parsed h = (inr df, h')
    /\ h' !! df = Some v
    /\ frame_get "cpa_BRL" v = Some (SFloat cpa)
    /\ frame_get "roas" v = Some (SFloat roas)
    /\ frame_get "ctr" v = Some (SFloat ctr)
    /\ forall i,
         (forall n d, sp !! i = Some n -> cv !! i = Some d ->
            cpa !! i = Some (if fgt d zero then fdiv n d else NaN))
         /\ (forall n d, rv !! i = Some n -> sp !! i = Some d ->
               roas !! i = Some (if fgt d zero then fdiv n d else NaN))
         /\ (forall n d, cl !! i = Some n -> im !! i = Some d ->
               ctr !! i = Some (if fgt d zero then fdiv n d else NaN)).
Proof.
  intros wf Hsp Hrv Him Hcl Hcv.
  eexists _, _, _, _, _, _.
  split; [apply (load_and_process_campaigns_run parsed sp rv im cl cv); assumption|].
  split; [apply lookup_insert_eq|].
  unfold processed.
  split; [rewrite !frame_get_set_ne by discriminate; apply frame_get_set_eq|].
  split; [rewrite !frame_get_set_ne by discriminate; apply frame_get_set_eq|].
  split; [apply frame_get_set_eq|].
  intros i. repeat split; intros n d Hn Hd;
    apply (ratio_column_lookup _ _ i n d Hn Hd).
Qed.


Lemma ltb_irrefl s : String.ltb s s = false.
Proof.
  unfold String.ltb. pose proof (String.compare_antisym s s) as H.
  destruct (String.compare s s); [reflexivity | discriminate..].
Qed.

Lemma ltb_leb a b : String.ltb a b = true -> String.leb a b = true.
Proof. unfold String.ltb, String.leb. destruct (String.compare a b); congruence. Qed.

Lemma ltb_asym a b : String.ltb a b = true -> String.ltb b a = false.
Proof.
  unfold String.ltb. rewrite (String.compare_antisym a b).
  destruct (String.compare b a); cbn; congruence.
Qed.

Lemma ltb_trans a b c :
  String.ltb a b = true -> String.ltb b c = true -> String.ltb a c = true.
Proof.
  intros Hab Hbc.
  assert (Hle : String.le a c).
  { transitivity b; apply Is_true_true; apply ltb_leb; assumption. }
  apply Is_true_true in Hle. unfold String.leb in Hle. unfold String.ltb.
  destruct (String.compare a c) eqn:E; [|reflexivity|discriminate].
  apply String.compare_eq_iff in E as ->.
  rewrite (ltb_asym _ _ Hab) in Hbc. discriminate.
Qed.

Lemma ltb_total a b :
  String.eqb a b = false -> String.ltb a b = false -> String.ltb b a = true.
Proof.
  unfold String.ltb. intros Hne Hlt. rewrite (String.compare_antisym b a).
  destruct (String.compare a b) eqn:E; cbn; try congruence.
  apply String.compare_eq_iff in E. apply String.eqb_neq in Hne. contradiction.
Qed.

Lemma key_insert_sorted k us :
  StronglySorted label_lt us ->
  StronglySorted label_lt (key_insert String.eqb String.ltb k us).
Proof.
  induction 1 as [|u us Hs IH Hall]; cbn.
  - repeat constructor.
  - destruct (String.eqb k u) eqn:E; [constructor; assumption|].
    destruct (String.ltb k u) eqn:L.
    + constructor; [constructor; assumption|].
      constructor; [exact L|].
      eapply Forall_impl; [exact Hall|]. intros x Hx. eapply ltb_trans; eassumption.
    + constructor; [exact IH|].
      apply Forall_forall. intros x Hx. apply list_elem_of_In in Hx.
      apply key_insert_In in Hx as [->|Hx].
      * unfold label_lt. apply ltb_total; assumption.
      * rewrite Forall_forall in Hall. apply Hall, list_elem_of_In, Hx.
Qed.

Lemma key_insert_length k us :
  (length (key_insert String.eqb String.ltb k us) <= S (length us))%nat.
Proof.
  induction us as [|u us IH]; cbn; [lia|].
  destruct (String.eqb k u); [cbn; lia|].
  destruct (String.ltb k u); cbn; lia.
Qed.

Lemma channel_keys_sorted chs : StronglySorted label_lt (channel_keys chs).
Proof.
  unfold channel_keys, group_keys.
  assert (H : forall us, StronglySorted label_lt us ->
                StronglySorted label_lt
                  (fold_left (fun us k => key_insert String.eqb String.ltb k us) chs us)).
  { induction chs as [|k chs IH]; intros us Hus; [exact Hus|].
    cbn. apply IH, key_insert_sorted, Hus. }
  apply H. constructor.
Qed.

Lemma channel_keys_length chs : (length (channel_keys chs) <= length chs)%nat.
Proof.
  unfold channel_keys, group_keys.
  assert (H : forall us,
             (length (fold_left (fun us k => key_insert String.eqb String.ltb k us) chs us)
              <= length chs + length us)%nat).
  { induction chs as [|k chs IH]; intros us; [cbn; lia|].
    cbn. specialize (IH (key_insert String.eqb String.ltb k us)).
    pose proof (key_insert_length k us). lia. }
  specialize (H []). cbn in H. lia.
Qed.

Lemma sorted_labels_NoDup us : StronglySorted label_lt us -> NoDup us.
Proof.
  induction 1 as [|u us Hs IH Hall]; constructor; [|exact IH].
  intros Hin. rewrite Forall_forall in Hall. specialize (Hall u Hin).
  unfold label_lt in Hall. rewrite ltb_irrefl in Hall. discriminate.
Qed.

Lemma aggregated_wf chs sp rv im cl cv : frame_wf (aggregated chs sp rv im cl cv).
Proof.
  unfold frame_wf, aggregated. cbn.
  repeat constructor; cbn;
    rewrite ?ratio_column_length; rewrite ?channel_sums_length; reflexivity.
Qed.

(** X4.  The table [aggregate_by_channel] returns has one row for each
    distinct channel of the input and no other: its [channel] column is
    strictly increasing, hence without repetition, its labels are those of
    the input, and its nine columns, [channel], the five sums and the three
    ratios in this order, all have that many entries. *)
Theorem aggregate_one_row_per_channel df h v chs sp rv im cl cv :
  h !! df = Some v ->
  frame_get "channel" v = Some (SObj chs) ->
  frame_get "spend_BRL" v = Some (SFloat sp) ->
  frame_get "revenue_BRL" v = Some (SFloat rv) ->
  frame_get "impressions" v = Some (SFloat im) ->
  frame_get "clicks" v = Some (SFloat cl) ->
  frame_get "conversions" v = Some (SFloat cv) ->
  exists g h' gv keys,
    aggregate_by_channel df h = (inr g, h')
    /\ h' !! g = Some gv
    /\ frame_get "channel" gv = Some (SObj keys)
    /\ StronglySorted label_lt keys
    /\ NoDup keys
    /\ (forall c, c ∈ keys <-> c ∈ chs)
    /\ nrows gv = length keys
    /\ (length keys <= length chs)%nat
    /\ frame_wf gv
    /\ map fst (columns gv)
       = ["channel"; "spend_BRL"; "revenue_BRL"; "impressions"; "clicks";
          "conversions"; "cpa_BRL"; "roas"; "ctr"].
Proof.
  intros Hdf Hch Hsp Hrv Him Hcl Hcv.
  exists (fresh (dom h)), (<[fresh (dom h) := aggregated chs sp rv im cl cv]> h),
    (aggregated chs sp rv im cl cv), (channel_keys chs).
  split; [eapply aggregate_by_channel_run; eassumption|].
  split; [apply lookup_insert_eq|].
  split; [reflexivity|].
  split; [apply channel_keys_sorted|].
  split; [apply sorted_labels_NoDup, channel_keys_sorted|].
  split; [intros c; rewrite !list_elem_of_In; apply group_keys_In|].
  split; [reflexivity|].
  split; [apply channel_keys_length|].
  split; [apply aggregated_wf | reflexivity].
Qed.


Lemma agg_columns_missing sum_of concat_of v c aggs :
  In c (map snd aggs) -> frame_get c v = None ->
  exists key, agg_columns sum_of concat_of v aggs = inl (KeyError key).
Proof.
  intros Hin Hnone. induction aggs as [|[out src] aggs IH]; [destruct Hin|].
  cbn [agg_columns]. destruct Hin as [Hc|Hin].
  - cbn in Hc. subst src. rewrite Hnone. eexists; reflexivity.
  - destruct (frame_get src v) as [col|]; [|eexists; reflexivity].
    destruct (IH Hin) as [key ->]. eexists; reflexivity.
Qed.

(** X6.  When [channel] or one of the five counters is absent,
    [aggregate_by_channel] raises a [KeyError] and the heap is left exactly
    as it was: no frame is created. *)
Theorem aggregate_rejects_missing_column df h v c :
  h !! df = Some v ->
  c = "channel" \/ In c counters ->
  frame_get c v = None ->
  exists key, aggregate_by_channel df h = (inl (KeyError key), h).
Proof.
  intros Hdf Hc Hnone. unfold aggregate_by_channel.
  rewrite bind_run. unfold deref. rewrite Hdf. cbv beta iota. unfold ok.
  rewrite bind_run.
  assert (Hg : exists key,
             groupby_agg_sum v "channel"
               [("spend_BRL", "spend_BRL"); ("revenue_BRL", "revenue_BRL");
                ("impressions", "impressions"); ("clicks", "clicks");
                ("conversions", "conversions")] = inl (KeyError key)).
  { unfold groupby_agg_sum. destruct Hc as [->|Hin]; [rewrite Hnone; eexists; reflexivity|].
    destruct (frame_get "channel" v) as [[ks|ks]|]; [| |eexists; reflexivity].
    - match goal with
      | |- context [agg_columns ?f ?g v ?aggs] =>
          destruct (agg_columns_missing f g v c aggs Hin Hnone) as [key ->]
      end.
      eexists; reflexivity.
    - match goal with
      | |- context [agg_columns ?f ?g v ?aggs] =>
          destruct (agg_columns_missing f g v c aggs Hin Hnone) as [key ->]
      end.
      eexists; reflexivity. }
  destruct Hg as [key ->]. exists key. reflexivity.
Qed.

(** X7.  A table without rows is aggregated to a table without rows, with
    all nine columns present and empty; nothing is raised. *)
Theorem aggregate_empty_table df h v :
  h !! df = Some v ->
  frame_wf v ->
  nrows v = 0%nat ->
  (exists chs, frame_get "channel" v = Some (SObj chs)) ->
  (forall c, In c counters -> exists xs, frame_get c v = Some (SFloat xs)) ->
  exists g h' gv,
    aggregate_by_channel df h = (inr g, h')
    /\ h' !! g = Some gv
    /\ nrows gv = 0%nat
    /\ frame_get "channel" gv = Some (SObj [])
    /\ (forall c, In c (counters ++ derived) -> frame_get c gv = Some (SFloat [])).
Proof.
  intros Hdf wf Hn [chs Hch] Hcols.
  assert (Hnil : forall c xs, frame_get c v = Some (SFloat xs) -> xs = []).
  { intros c xs Hc. pose proof (frame_wf_length _ _ _ wf Hc) as Hlen.
    rewrite Hn in Hlen. destruct xs; [reflexivity | discriminate]. }
  pose proof (frame_wf_length _ _ _ wf Hch) as Hlen. rewrite Hn in Hlen.
  destruct chs; [|discriminate].
  destruct (Hcols "spend_BRL") as [sp Hsp]; [cbn; tauto|].
  destruct (Hcols "revenue_BRL") as [rv Hrv]; [cbn; tauto|].
  destruct (Hcols "impressions") as [im Him]; [cbn; tauto|].
  destruct (Hcols "clicks") as [cl Hcl]; [cbn; tauto|].
  destruct (Hcols "conversions") as [cv Hcv]; [cbn; tauto|].
  rewrite (Hnil _ _ Hsp) in Hsp. rewrite (Hnil _ _ Hrv) in Hrv.
  rewrite (Hnil _ _ Him) in Him. rewrite (Hnil _ _ Hcl) in Hcl.
  rewrite (Hnil _ _ Hcv) in Hcv.
  exists (fresh (dom h)), (<[fresh (dom h) := aggregated [] [] [] [] [] []]> h),
    (aggregated [] [] [] [] [] []).
  split; [eapply aggregate_by_channel_run; eassumption|].
  split; [apply lookup_insert_eq|].
  split; [reflexivity|]. split; [reflexivity|].
  intros c Hc. cbn in Hc.
  repeat (destruct Hc as [<-|Hc]; [reflexivity|]). destruct Hc.
Qed.


(** X9.  Without a [channel] or a [roas] column,
    [get_best_channel_by_roas] raises the [ValueError] of its own check,
    with its message, and leaves the heap as it was. *)
Theorem best_channel_missing_column df h v :
  h !! df = Some v ->
  frame_get "channel" v = None \/ frame_get "roas" v = None ->
  get_best_channel_by_roas df h = (inl missing_columns, h).
Proof.
  intros Hdf Hmiss. unfold get_best_channel_by_roas.
  rewrite bind_run. unfold deref. rewrite Hdf. cbv beta iota. unfold ok.
  unfold has_column.
  destruct Hmiss as [-> | ->]; [reflexivity|].
  destruct (frame_get "channel" v); reflexivity.
Qed.

(** X10.  [get_best_channel_by_roas] never changes the heap, whether it
    returns or raises. *)
Theorem best_channel_reads_only df h : (get_best_channel_by_roas df h).2 = h.
Proof.
  unfold get_best_channel_by_roas. rewrite bind_run. unfold deref at 1.
  destruct (h !! df) as [v|] eqn:Hdf; [|reflexivity]. cbv beta iota. unfold ok.
  destruct (negb _ || negb _); [reflexivity|].
  rewrite bind_run. unfold getitem. rewrite bind_run. unfold deref at 1.
  rewrite Hdf. cbv beta iota. unfold ok.
  destruct (frame_get "roas" v) as [roas|]; [|reflexivity].
  cbn [mret M_ret ok]. rewrite bind_run. cbn [lift].
  destruct (idxmax roas) as [e|label]; [reflexivity|].
  rewrite bind_run. unfold deref. rewrite Hdf. cbv beta iota. unfold ok.
  rewrite bind_run. cbn [lift].
  destruct (loc v label) as [e|row]; [reflexivity|].
  rewrite bind_run. cbn [lift].
  destruct (row_getitem row "channel") as [e|ch]; [reflexivity|].
  rewrite bind_run. cbn [lift].
  destruct (row_getitem row "roas") as [e|r]; [reflexivity|].
  rewrite bind_run. cbn [lift].
  destruct (float_of_cell r) as [e|x]; reflexivity.
Qed.


Lemma Qltb_lt a b : Qltb a b = true <-> (a < b)%Q.
Proof.
  unfold Qltb. rewrite Qlt_alt. destruct (a ?= b)%Q; split; congruence.
Qed.

Lemma Qltb_ge a b : Qltb a b = false <-> (b <= a)%Q.
Proof.
  split.
  - intros H. apply Qnot_lt_le. intros Hlt. apply Qltb_lt in Hlt. congruence.
  - intros H. destruct (Qltb a b) eqn:E; [|reflexivity].
    apply Qltb_lt in E. apply Qle_not_lt in H. contradiction.
Qed.

Lemma fgt_irrefl x : fgt x x = false.
Proof.
  destruct x as [| | |a]; try reflexivity. cbn. apply Qltb_ge. apply Qle_refl.
Qed.

Lemma fgt_below y b x :
  isnan y = false -> isnan b = false -> isnan x = false ->
  fgt y b = false -> fgt x b = true -> fgt y x = false.
Proof.
  destruct y as [| | |p], b as [| | |q], x as [| | |r]; cbn; try congruence.
  rewrite !Qltb_ge, Qltb_lt. intros _ _ _ H1 H2.
  apply Qlt_le_weak. eapply Qle_lt_trans; eassumption.
Qed.

Lemma argmax_from_sound l : forall pre best k,
  argmax_inv pre best ->
  argmax_from (length pre) best l = Some k ->
  exists m, (pre ++ l) !! k = Some m /\ isnan m = false
    /\ Forall (fun x => isnan x = false -> fgt x m = false) (pre ++ l).
Proof.
  induction l as [|x l IH]; intros pre best k Hinv Hrun.
  - cbn in Hrun. destruct best as [[ib b]|]; [|discriminate].
    injection Hrun as <-. destruct Hinv as (Hb & Hnan & Hall).
    exists b. rewrite app_nil_r. auto.
  - cbn [argmax_from] in Hrun.
    replace (pre ++ x :: l) with ((pre ++ [x]) ++ l) by (rewrite <- app_assoc; reflexivity).
    replace (S (length pre)) with (length (pre ++ [x])) in Hrun
      by (rewrite length_app; cbn; lia).
    destruct (isnan x) eqn:Ex.
    + apply (IH _ best); [|assumption].
      destruct best as [[ib b]|]; cbn in *.
      * destruct Hinv as (Hb & Hnan & Hall). split; [|split; [assumption|]].
        -- apply lookup_app_l_Some. assumption.
        -- apply Forall_app. split; [assumption|]. constructor; [congruence|constructor].
      * apply Forall_app. split; [assumption|]. constructor; [assumption|constructor].
    + assert (Hnew : argmax_inv (pre ++ [x]) (Some (length pre, x)) ->
                     argmax_from (length (pre ++ [x])) (Some (length pre, x)) l = Some k ->
                     exists m, ((pre ++ [x]) ++ l) !! k = Some m /\ isnan m = false
                       /\ Forall (fun y => isnan y = false -> fgt y m = false)
                            ((pre ++ [x]) ++ l)) by apply IH.
      destruct best as [[ib b]|].
      * destruct Hinv as (Hb & Hnan & Hall).
        destruct (fgt x b) eqn:Egt.
        -- apply Hnew; [|assumption]. cbn. split; [|split; [assumption|]].
           ++ rewrite lookup_app_r by lia. rewrite Nat.sub_diag. reflexivity.
           ++ apply Forall_app. split.
              ** eapply Forall_impl; [exact Hall|]. intros y Hy Ey.
                 apply (fgt_below y b x); auto.
              ** constructor; [|constructor]. intros _. apply fgt_irrefl.
        -- apply (IH _ (Some (ib, b))); [|assumption]. cbn.
           split; [apply lookup_app_l_Some; assumption|]. split; [assumption|].
           apply Forall_app. split; [assumption|].
           constructor; [intros _; assumption|constructor].
      * apply Hnew; [|assumption]. cbn. split; [|split; [assumption|]].
        -- rewrite lookup_app_r by lia. rewrite Nat.sub_diag. reflexivity.
        -- apply Forall_app. split.
           ++ eapply Forall_impl; [exact Hinv|]. intros y Hy Ey. congruence.
           ++ constructor; [|constructor]. intros _. apply fgt_irrefl.
Qed.

(** X11.  Whatever [get_best_channel_by_roas] returns is a row of the
    table: the channel and ratio of one row, the ratio is not NaN, and no
    ratio of the table that is not NaN is greater. *)
Theorem best_channel_is_a_maximum df h v chs roas ch m h' :
  h !! df = Some v ->
  frame_wf v ->
  frame_get "channel" v = Some (SObj chs) ->
  frame_get "roas" v = Some (SFloat roas) ->
  get_best_channel_by_roas df h = (inr (ch, m), h') ->
  exists i c,
    ch = CStr c /\ chs !! i = Some c /\ roas !! i = Some m
    /\ isnan m = false
    /\ Forall (fun x => isnan x = false -> fgt x m = false) roas.
Proof.
  intros Hdf wf Hch Hr Hrun.
  pose proof (frame_wf_length _ _ _ wf Hr) as Lr.
  pose proof (frame_wf_length _ _ _ wf Hch) as Lch. cbn in Lr, Lch.
  unfold get_best_channel_by_roas in Hrun.
  rewrite bind_run in Hrun. unfold deref in Hrun. rewrite Hdf in Hrun.
  cbv beta iota in Hrun. unfold ok in Hrun.
  rewrite (has_column_true _ _ _ Hch), (has_column_true _ _ _ Hr) in Hrun.
  cbn [negb orb] in Hrun.
  rewrite bind_run, (getitem_run df "roas" h v _ Hdf Hr) in Hrun.
  rewrite bind_run in Hrun. cbn [lift] in Hrun.
  destruct roas as [|r0 roas']; [cbn in Hrun; discriminate|].
  cbn [idxmax] in Hrun. unfold ok in Hrun.
  destruct (argmax_from 0 None (r0 :: roas')) as [k|] eqn:Earg;
    rewrite bind_run, Hdf in Hrun; cbv beta iota in Hrun;
    rewrite bind_run in Hrun; cbn [lift loc raise] in Hrun; [|discriminate].
  destruct (argmax_from_sound (r0 :: roas') [] None k) as (m' & Hk & Hnan & Hmax);
    [constructor | exact Earg |].
  cbn [app] in Hk, Hmax.
  assert (Hlt : (k < nrows v)%nat) by (rewrite <- Lr; eapply lookup_lt_Some, Hk).
  replace (k <? nrows v)%nat with true in Hrun by (symmetry; apply Nat.ltb_lt; exact Hlt).
  destruct (lookup_lt_is_Some_2 chs k) as [c Hc]; [lia|].
  unfold ok in Hrun. rewrite bind_run in Hrun. unfold row_getitem in Hrun.
  rewrite (row_lookup "channel" (SObj chs) k (CStr c)) in Hrun;
    [|assumption|cbn; rewrite Hc; reflexivity].
  cbn [lift] in Hrun. unfold ok in Hrun. rewrite bind_run in Hrun.
  rewrite (row_lookup "roas" (SFloat (r0 :: roas')) k (CFloat m')) in Hrun;
    [|assumption|cbn [Series_iloc]; rewrite Hk; reflexivity].
  cbn in Hrun. injection Hrun as <- <- _.
  exists k, c. auto.
Qed.

Lemma best_channel_is_a_maximum_witness :
  exists i c,
    CStr "Google" = CStr c /\ ["Email"; "Google"; "Meta"] !! i = Some c
    /\ [F 2; F 4; F 4] !! i = Some (F 4)
    /\ isnan (F 4) = false
    /\ Forall (fun x => isnan x = false -> fgt x (F 4) = false) [F 2; F 4; F 4].
Proof.
  apply (best_channel_is_a_maximum 0 {[ 0%nat := tied ]} tied
           ["Email"; "Google"; "Meta"] [F 2; F 4; F 4] (CStr "Google") (F 4)
           {[ 0%nat := tied ]});
    first [reflexivity | repeat constructor].
Defined.

Lemma load_then_aggregate_run parsed chs sp rv im cl cv h :
  frame_wf parsed ->
  frame_get "channel" parsed = Some (SObj chs) ->
  frame_get "spend_BRL" parsed = Some (SFloat sp) ->
  frame_get "revenue_BRL" parsed = Some (SFloat rv) ->
  frame_get "impressions" parsed = Some (SFloat im) ->
  frame_get "clicks" parsed = Some (SFloat cl) ->
  frame_get "conversions" parsed = Some (SFloat cv) ->
  exists df g h',
    (load_and_process_campaigns parsed ≫= aggregate_by_channel) h = (inr g, h')
    /\ df <> g
    /\ h' !! df = Some (processed parsed sp rv im cl cv)
    /\ h' !! g = Some (aggregated chs sp rv im cl cv)
    /\ (forall x v, h !! x = Some v -> h' !! x = Some v).
Proof.
  intros wf Hch Hsp Hrv Him Hcl Hcv.
  set (df := fresh (dom h)).
  set (h1 := <[df := processed parsed sp rv im cl cv]> h).
  set (g := fresh (dom h1)).
  assert (Hdf : h !! df = None) by apply not_elem_of_dom, is_fresh.
  assert (Hg : h1 !! g = None) by apply not_elem_of_dom, is_fresh.
  assert (Hne : df <> g).
  { intros E. rewrite <- E in Hg. unfold h1 in Hg. rewrite lookup_insert_eq in Hg.
    discriminate. }
  exists df, g, (<[g := aggregated chs sp rv im cl cv]> h1).
  split; [|split; [assumption|split; [|split]]].
  - rewrite bind_run.
    rewrite (load_and_process_campaigns_run parsed sp rv im cl cv) by assumption.
    fold df. fold h1.
    apply (aggregate_by_channel_run df h1 (processed parsed sp rv im cl cv));
      [apply lookup_insert_eq|..];
      unfold processed; rewrite !frame_get_set_ne by discriminate; assumption.
  - rewrite lookup_insert_ne by congruence. apply lookup_insert_eq.
  - apply lookup_insert_eq.
  - intros x v Hx.
    assert (x <> df) by congruence.
    assert (Hx1 : h1 !! x = Some v)
      by (unfold h1; rewrite lookup_insert_ne by congruence; assumption).
    rewrite lookup_insert_ne by congruence. assumption.
Qed.



(** ** The command line *)



Section MainProperties.
Variables (format_2f str_float : float64 -> string).
Variables (parsed : DataFrame) (chs : list string) (sp rv im cl cv : list float64).
Hypothesis wf : frame_wf parsed.
Hypothesis Hch : frame_get "channel" parsed = Some (SObj chs).
Hypothesis Hsp : frame_get "spend_BRL" parsed = Some (SFloat sp).
Hypothesis Hrv : frame_get "revenue_BRL" parsed = Some (SFloat rv).
Hypothesis Him : frame_get "impressions" parsed = Some (SFloat im).
Hypothesis Hcl : frame_get "clicks" parsed = Some (SFloat cl).
Hypothesis Hcv : frame_get "conversions" parsed = Some (SFloat cv).

(** [main] up to the test on the question. *)
Lemma main_after_aggregation pergunta h :
  exists g h',
    h' !! g = Some (aggregated chs sp rv im cl cv)
    /\ (forall x v, h !! x = Some v -> h' !! x = Some v)
    /\ main format_2f str_float pergunta parsed h
       = (if str_in "roas" (lower (default default_pergunta pergunta))
             && str_in "canal" (lower (default default_pergunta pergunta))
          then
            best ← get_best_channel_by_roas g;
            mret (best_channel_line format_2f str_float best.1 best.2)
          else mret unsupported) h'.
Proof.
  destruct (load_then_aggregate_run parsed chs sp rv im cl cv h wf Hch Hsp Hrv Him Hcl Hcv)
    as (df & g & h' & Hrun & _ & _ & Hg & Hold).
  exists g, h'. split; [assumption|]. split; [assumption|].
  unfold main. cbv zeta.
  rewrite bind_run in Hrun.
  rewrite bind_run.
  destruct (load_and_process_campaigns parsed h) as [[e|df'] h1]; [discriminate|].
  rewrite bind_run, Hrun. reflexivity.
Qed.
End MainProperties.

(** X13.  On a table with numeric counters, a question whose lower-case
    form lacks "roas" or lacks "canal" gets the fixed line for unsupported
    questions; [get_best_channel_by_roas] is not called. *)
Theorem main_unsupported_question format_2f str_float q parsed chs sp rv im cl cv h :
  frame_wf parsed ->
  frame_get "channel" parsed = Some (SObj chs) ->
  frame_get "spend_BRL" parsed = Some (SFloat sp) ->
  frame_get "revenue_BRL" parsed = Some (SFloat rv) ->
  frame_get "impressions" parsed = Some (SFloat im) ->
  frame_get "clicks" parsed = Some (SFloat cl) ->
  frame_get "conversions" parsed = Some (SFloat cv) ->
  str_in "roas" (lower q) && str_in "canal" (lower q) = false ->
  (main format_2f str_float (Some q) parsed h).1 = inr unsupported.
Proof.
  intros wf Hch Hsp Hrv Him Hcl Hcv Hq.
  destruct (main_after_aggregation format_2f str_float parsed chs sp rv im cl cv
              wf Hch Hsp Hrv Him Hcl Hcv (Some q) h) as (g & h' & _ & _ & ->).
  change (default default_pergunta (Some q)) with q. rewrite Hq. reflexivity.
Qed.


(** X14.  The table is loaded before the question is looked at: with a
    counter absent or holding text, [main] raises whatever the question,
    supported or not. *)
Theorem main_loads_before_routing format_2f str_float pergunta parsed h c :
  frame_wf parsed ->
  In c counters ->
  not_numeric c parsed ->
  raises (main format_2f str_float pergunta parsed h).1.
Proof.
  intros wf Hin Hbad.
  destruct (load_raises_on_bad_counter parsed h c wf Hin Hbad) as [e He].
  unfold main. cbv zeta. rewrite bind_run.
  destruct (load_and_process_campaigns parsed h) as [[e'|df] h1]; [|discriminate].
  exists e'. reflexivity.
Qed.

(** X15.  [main] catches nothing: on a table without rows the supported
    question ends in the exception of [idxmax], not in a printed line. *)
Theorem main_empty_table_raises format_2f str_float q parsed h :
  frame_wf parsed ->
  nrows parsed = 0%nat ->
  (exists chs, frame_get "channel" parsed = Some (SObj chs)) ->
  (forall c, In c counters -> exists xs, frame_get c parsed = Some (SFloat xs)) ->
  str_in "roas" (lower q) = true ->
  str_in "canal" (lower q) = true ->
  raises (main format_2f str_float (Some q) parsed h).1.
Proof.
  intros wf Hn [chs Hch] Hcols Hroas Hcanal.
  assert (Hnil : forall c xs, frame_get c parsed = Some (SFloat xs) -> xs = []).
  { intros c xs Hc. pose proof (frame_wf_length _ _ _ wf Hc) as Hlen.
    rewrite Hn in Hlen. destruct xs; [reflexivity | discriminate]. }
  pose proof (frame_wf_length _ _ _ wf Hch) as Hlen. rewrite Hn in Hlen.
  destruct chs; [|discriminate].
  destruct (Hcols "spend_BRL") as [sp Hsp]; [cbn; tauto|].
  destruct (Hcols "revenue_BRL") as [rv Hrv]; [cbn; tauto|].
  destruct (Hcols "impressions") as [im Him]; [cbn; tauto|].
  destruct (Hcols "clicks") as [cl Hcl]; [cbn; tauto|].
  destruct (Hcols "conversions") as [cv Hcv]; [cbn; tauto|].
  rewrite (Hnil _ _ Hsp) in Hsp. rewrite (Hnil _ _ Hrv) in Hrv.
  rewrite (Hnil _ _ Him) in Him. rewrite (Hnil _ _ Hcl) in Hcl.
  rewrite (Hnil _ _ Hcv) in Hcv.
  destruct (main_after_aggregation format_2f str_float parsed [] [] [] [] [] []
              wf Hch Hsp Hrv Him Hcl Hcv (Some q) h) as (g & h' & Hg & _ & ->).
  change (default default_pergunta (Some q)) with q.
  rewrite Hroas, Hcanal. cbn [andb]. rewrite bind_run.
  unfold get_best_channel_by_roas. rewrite bind_run. unfold deref at 1. rewrite Hg.
  cbv beta iota. unfold ok. cbn [has_column frame_get aggregated columns assoc_get
                                   String.eqb Ascii.eqb Bool.eqb negb orb].
  rewrite bind_run.
  rewrite (getitem_run g "roas" h' (aggregated [] [] [] [] [] []) (SFloat []) Hg eq_refl).
  rewrite bind_run. eexists. reflexivity.
Qed.

Lemma lower_char_idem c : lower_char (lower_char c) = lower_char c.
Proof. destruct c as [[] [] [] [] [] [] [] []]; reflexivity. Qed.

Lemma lower_idem s : lower (lower s) = lower s.
Proof.
  induction s as [|c s IH]; [reflexivity|]. cbn. rewrite lower_char_idem, IH.
  reflexivity.
Qed.

(** X16.  The question is matched without regard to case: [main] on a
    question and on its lower-case form are the same computation. *)
Theorem main_ignores_case format_2f str_float q parsed h :
  main format_2f str_float (Some (lower q)) parsed h
  = main format_2f str_float (Some q) parsed h.
Proof.
  unfold main.
  change (default default_pergunta (Some q)) with q.
  change (default default_pergunta (Some (lower q))) with (lower q).
  rewrite lower_idem. reflexivity.
Qed.

(** ** The text splitter *)

Local Open Scope Z_scope.

Lemma append_cons c a b : String c a +:+ b = String c (a +:+ b).
Proof. reflexivity. Qed.

Lemma append_nil_r s : s +:+ "" = s.
Proof. induction s as [|c s IH]; [reflexivity|]. rewrite append_cons, IH. reflexivity. Qed.

Lemma append_assoc a b c : (a +:+ b) +:+ c = a +:+ (b +:+ c).
Proof.
  induction a as [|x a IH]; [reflexivity|]. rewrite !append_cons, IH. reflexivity.
Qed.

Lemma join_empty_cons x l : join "" (x :: l) = x +:+ join "" l.
Proof. destruct l; [cbn; symmetry; apply append_nil_r | reflexivity]. Qed.

Lemma join_empty_app l1 l2 : join "" (l1 ++ l2) = join "" l1 +:+ join "" l2.
Proof.
  induction l1 as [|x l1 IH]; [reflexivity|].
  change ((x :: l1) ++ l2) with (x :: (l1 ++ l2)).
  rewrite !join_empty_cons, IH, append_assoc. reflexivity.
Qed.

Lemma prefix_drop sep s :
  String.prefix sep s = true -> s = sep +:+ string_drop (String.length sep) s.
Proof.
  revert s. induction sep as [|a sep IH]; intros s H; [reflexivity|].
  destruct s as [|c s]; [discriminate|]. cbn in H.
  destruct (ascii_dec a c) as [<-|]; [|discriminate].
  cbn [String.length string_drop]. rewrite append_cons. f_equal. apply IH, H.
Qed.

Lemma re_split_capture_join sep text : forall skip cur,
  sep <> "" ->
  join "" (re_split_capture sep skip cur text) = cur +:+ string_drop skip text.
Proof.
  induction text as [|c rest IH]; intros skip cur Hsep.
  - cbn [re_split_capture join].
    destruct skip; cbn [string_drop]; rewrite append_nil_r; reflexivity.
  - cbn [re_split_capture]. destruct skip as [|n]; [|apply IH; assumption].
    destruct (String.prefix sep (String c rest)) eqn:E.
    + rewrite !join_empty_cons, IH by assumption. cbn [string_drop].
      apply prefix_drop in E.
      destruct sep as [|a sep']; [contradiction|].
      cbn [String.length string_drop] in E. cbn [String.length Nat.sub].
      rewrite Nat.sub_0_r. rewrite append_cons in E. injection E as <- E.
      change (@EmptyString +:+ string_drop (String.length sep') rest)
        with (string_drop (String.length sep') rest).
      rewrite append_cons, <- E. reflexivity.
    + rewrite IH by assumption. cbn [string_drop]. rewrite append_assoc. reflexivity.
Qed.

Lemma re_split_capture_shape sep text : forall skip cur,
  exists p qs, re_split_capture sep skip cur text = p :: separated sep qs.
Proof.
  induction text as [|c rest IH]; intros skip cur.
  - exists cur, []. reflexivity.
  - cbn [re_split_capture]. destruct skip as [|n]; [|apply IH].
    destruct (String.prefix sep (String c rest)); [|apply IH].
    destruct (IH (String.length sep - 1)%nat "") as (p & qs & ->).
    exists cur, (p :: qs). reflexivity.
Qed.

Lemma pair_up_separated sep qs : pair_up (separated sep qs) = map (String.append sep) qs.
Proof. induction qs as [|q qs IH]; [reflexivity|]. cbn. f_equal. exact IH. Qed.

Lemma even_separated sep p qs : Nat.even (length (p :: separated sep qs)) = false.
Proof. induction qs as [|q qs IH]; [reflexivity|]. exact IH. Qed.

Lemma join_separated sep qs :
  join "" (separated sep qs) = join "" (map (String.append sep) qs).
Proof.
  induction qs as [|q qs IH]; [reflexivity|].
  change (separated sep (q :: qs)) with (sep :: q :: separated sep qs).
  cbn [map]. rewrite !join_empty_cons, IH, append_assoc. reflexivity.
Qed.

Lemma join_filter_nonempty l :
  join "" (filter (fun s => nonempty s = true) l) = join "" l.
Proof.
  induction l as [|x l IH]; [reflexivity|].
  rewrite filter_cons. destruct (decide (nonempty x = true)) as [H|H].
  - rewrite !join_empty_cons, IH. reflexivity.
  - rewrite join_empty_cons, IH. destruct x; [reflexivity|].
    exfalso. apply H. reflexivity.
Qed.

(** Splitting loses nothing: the pieces, put together, are the text. *)
Lemma split_text_with_regex_join text sep :
  sep <> "" -> join "" (_split_text_with_regex text sep true) = text.
Proof.
  intros Hsep. unfold _split_text_with_regex.
  replace (nonempty sep) with true
    by (destruct sep; [contradiction | reflexivity]).
  rewrite join_filter_nonempty.
  pose proof (re_split_capture_join sep text 0 "" Hsep) as Hjoin.
  destruct (re_split_capture_shape sep text 0 "") as (p & qs & E).
  rewrite E in *. rewrite even_separated. cbn [tail hd].
  rewrite pair_up_separated. rewrite join_empty_cons, <- join_separated.
  rewrite <- join_empty_cons. exact Hjoin.
Qed.

Lemma piece_len_bound (l : list string) s : In s l -> len s <= sum_len l.
Proof.
  induction l as [|x l IH]; [intros []|]. intros [->|Hin]; cbn.
  - pose proof (sum_len_nonneg l). fold (sum_len l). lia.
  - specialize (IH Hin). pose proof (len_nonneg x). fold (sum_len l). lia.
Qed.

Section ShortText.
Variable self : RecursiveCharacterTextSplitter.
Hypothesis keep : _keep_separator self = true.

Lemma merge_loop_fits splits : forall docs cur,
  sum_len cur + sum_len splits <= _chunk_size self ->
  merge_loop self "" splits docs cur (sum_len cur)
  = inr (docs ++ whole self (cur ++ splits)).
Proof.
  induction splits as [|d rest IH]; intros docs cur Hfit.
  - cbn [merge_loop]. rewrite app_nil_r. unfold whole.
    destruct (_join_docs self cur ""); [reflexivity|]. rewrite app_nil_r. reflexivity.
  - cbn [merge_loop]. change (len "") with 0.
    cbn [sum_len foldr] in Hfit. fold (sum_len rest) in Hfit.
    pose proof (sum_len_nonneg rest).
    replace (_chunk_size self <? _) with false.
    2: { symmetry. apply Z.ltb_ge. destruct (0 <? length cur)%nat; lia. }
    replace (sum_len cur + (len d + (if (1 <? length (cur ++ [d]))%nat then 0 else 0)))
      with (sum_len (cur ++ [d])).
    2: { rewrite sum_len_app. cbn [sum_len foldr].
         destruct (1 <? length (cur ++ [d]))%nat; lia. }
    rewrite IH.
    + rewrite <- app_assoc. reflexivity.
    + rewrite sum_len_app. cbn [sum_len foldr]. lia.
Qed.

Lemma split_loop_small recur splits : forall final good,
  Forall (fun s => len s < _chunk_size self) splits ->
  sum_len good + sum_len splits <= _chunk_size self ->
  split_loop self recur "" splits final good = inr (final ++ whole self (good ++ splits)).
Proof.
  induction splits as [|s rest IH]; intros final good Hsmall Hfit.
  - cbn [split_loop]. rewrite app_nil_r. destruct good as [|g good'].
    + unfold whole, _join_docs. cbn. destruct (_strip_whitespace self); cbn;
        rewrite app_nil_r; reflexivity.
    + unfold _merge_splits.
      change (merge_loop self "" (g :: good') [] [] 0)
        with (merge_loop self "" (g :: good') [] [] (sum_len [])).
      rewrite (merge_loop_fits (g :: good') [] [])
        by (cbn [sum_len foldr] in *; lia).
      reflexivity.
  - apply Forall_cons in Hsmall as [Hs Hrest]. cbn [split_loop].
    replace (len s <? _chunk_size self) with true by (symmetry; apply Z.ltb_lt; exact Hs).
    rewrite IH; [rewrite <- app_assoc; reflexivity | assumption |].
    rewrite sum_len_app. cbn [sum_len foldr] in *. fold (sum_len rest) in Hfit. lia.
Qed.

Lemma split_with_short sep recur text :
  sep <> "" -> len text < _chunk_size self ->
  split_with self sep recur text = inr (whole self [text]).
Proof.
  intros Hsep Hshort. unfold split_with. rewrite keep.
  pose proof (split_text_with_regex_join text sep Hsep) as Hjoin.
  set (pieces := _split_text_with_regex text sep true) in *.
  assert (Hsum : sum_len pieces = len text) by (rewrite <- len_join_empty, Hjoin; reflexivity).
  rewrite split_loop_small.
  - cbn [app]. unfold whole, _join_docs. rewrite Hjoin. reflexivity.
  - apply Forall_forall. intros s Hs. apply list_elem_of_In, piece_len_bound in Hs. lia.
  - cbn [sum_len foldr]. lia.
Qed.

Lemma split_text_short separators text :
  separators <> [] ->
  Forall (fun s => s <> "") separators ->
  len text < _chunk_size self ->
  _split_text self separators text = inr (whole self [text]).
Proof.
  intros Hne Hseps Hshort.
  induction separators as [|_s rest IH]; [contradiction|].
  apply Forall_cons in Hseps as [Hs Hrest].
  cbn [_split_text]. pose proof Hs as Hs'. apply String.eqb_neq in Hs'. rewrite Hs'.
  destruct (re_search _s text); [apply split_with_short; assumption|].
  destruct rest as [|r rest']; [apply split_with_short; assumption|].
  apply IH; [discriminate | assumption].
Qed.
End ShortText.

(** X17.  A text of fewer than 500 characters (with codes below 256, as
    every [string] here) is never cut: its chunks are the text itself with
    the white space of [str.strip] removed at its ends, or nothing at all
    when only white space is left. *)
Theorem short_text_is_one_chunk text :
  (String.length text < 500)%nat ->
  split_text splitter text
  = inr (if String.eqb (strip text) "" then [] else [strip text]).
Proof.
  intros Hshort. unfold split_text.
  rewrite (split_text_short splitter).
  - unfold whole, _join_docs. cbn [join splitter _strip_whitespace].
    destruct (String.eqb (strip text) ""); reflexivity.
  - reflexivity.
  - discriminate.
  - repeat constructor; discriminate.
  - unfold len. cbn. lia.
Qed.

Lemma short_text_is_one_chunk_witness :
  split_text splitter "  ROAS is revenue over spend. " = inr ["ROAS is revenue over spend."].
Proof.
  exact (short_text_is_one_chunk "  ROAS is revenue over spend. " ltac:(simpl; lia)).
Defined.

(** Where the chunks of the splitter come from: a merged run of pieces
    that [_join_docs] kept, or a piece of at least the chunk size. *)
Section Origins.
Variable self : RecursiveCharacterTextSplitter.
Variable P : string -> Prop.
Hypothesis joined : forall cur sep doc, _join_docs self cur sep = Some doc -> P doc.
Hypothesis long : forall s, _chunk_size self <= len s -> P s.

Lemma merge_loop_origin sep splits : forall docs cur total out,
  Forall P docs ->
  merge_loop self sep splits docs cur total = inr out ->
  Forall P out.
Proof.
  induction splits as [|d rest IH]; intros docs cur total out Hdocs Hrun.
  - cbn [merge_loop] in Hrun. destruct (_join_docs self cur sep) as [doc|] eqn:E.
    + injection Hrun as <-. apply Forall_app. split; [assumption|].
      constructor; [eapply joined, E | constructor].
    + injection Hrun as <-. assumption.
  - cbn [merge_loop] in Hrun.
    destruct (_chunk_size self <? _); [|eapply IH; eassumption].
    destruct (0 <? length cur)%nat; [|eapply IH; eassumption].
    destruct (pop_loop self (len sep) (len d) total cur) as [e|[total' cur']];
      [discriminate|].
    eapply IH; [|exact Hrun].
    destruct (_join_docs self cur sep) as [doc|] eqn:E; [|assumption].
    apply Forall_app. split; [assumption|].
    constructor; [eapply joined, E | constructor].
Qed.

Lemma flush_origin sep final good out :
  Forall P final ->
  match good with
  | [] => ok final
  | _ => match _merge_splits self good sep with
         | inl e => inl e
         | inr merged_text => ok (final ++ merged_text)
         end
  end = inr out ->
  Forall P out.
Proof.
  intros Hfinal Hrun. destruct good as [|g good'].
  - injection Hrun as <-. assumption.
  - destruct (_merge_splits self (g :: good') sep) as [e|merged] eqn:E; [discriminate|].
    injection Hrun as <-. apply Forall_app. split; [assumption|].
    eapply merge_loop_origin; [|exact E]. constructor.
Qed.

Lemma split_loop_origin recur sep splits : forall final good out,
  match recur with
  | None => True
  | Some f => forall s cs, f s = inr cs -> Forall P cs
  end ->
  Forall P final ->
  split_loop self recur sep splits final good = inr out ->
  Forall P out.
Proof.
  induction splits as [|s rest IH]; intros final good out Hrec Hfinal Hrun.
  - cbn [split_loop] in Hrun. eapply flush_origin; eassumption.
  - cbn [split_loop] in Hrun.
    destruct (len s <? _chunk_size self) eqn:E; [eapply IH; eassumption|].
    apply Z.ltb_ge in E.
    match type of Hrun with
    | match ?flush with _ => _ end = _ => destruct flush as [e|final'] eqn:Ef
    end; [discriminate|].
    pose proof (flush_origin sep final good final' Hfinal Ef) as Hfinal'.
    destruct recur as [f|].
    + destruct (f s) as [e|other] eqn:Eo; [discriminate|].
      eapply IH; [exact Hrec| |exact Hrun].
      apply Forall_app. split; [assumption | eapply Hrec, Eo].
    + eapply IH; [exact I| |exact Hrun].
      apply Forall_app. split; [assumption|].
      constructor; [apply long, E | constructor].
Qed.

Lemma split_text_origin separators : forall text out,
  _split_text self separators text = inr out -> Forall P out.
Proof.
  induction separators as [|_s rest IH]; intros text out Hrun; [discriminate|].
  cbn [_split_text] in Hrun.
  assert (Hnone : forall t o, split_with self _s None t = inr o -> Forall P o).
  { intros t o H. unfold split_with in H.
    eapply (split_loop_origin None); [exact I|constructor|exact H]. }
  destruct (String.eqb _s ""); [eapply Hnone, Hrun|].
  destruct (re_search _s text).
  - destruct rest as [|r rest']; [eapply Hnone, Hrun|].
    unfold split_with in Hrun.
    eapply (split_loop_origin (Some (_split_text self (r :: rest'))));
      [exact IH|constructor|exact Hrun].
  - destruct rest as [|r rest']; [eapply Hnone, Hrun|]. eapply IH, Hrun.
Qed.
End Origins.

(** X18.  No chunk is empty, for any text. *)
Theorem no_empty_chunk text : Forall (fun c => c <> "") (chunks_of text).
Proof.
  apply (split_text_origin splitter (fun c => c <> "")) with (separators := _separators splitter) (text := text).
  - intros cur sep doc. unfold _join_docs.
    destruct (String.eqb _ "") eqn:E; [discriminate|].
    intros [= <-]. apply String.eqb_neq, E.
  - intros s Hs ->. cbn in Hs. unfold len in Hs. cbn in Hs. lia.
  - apply split_text_chunks_of.
Qed.

Local Close Scope Z_scope.

(** ** The retrieval engine *)

Lemma build_knowledge_base_run distance self texts metadatas d :
  built_documents texts metadatas <> [] ->
  build_knowledge_base (VS := chroma distance) self texts metadatas d
  = inr (with_store self,
         <[persist_directory self :=
             default [] (d !! persist_directory self)
             ++ built_documents texts metadatas]> d).
Proof.
  intros Hdocs.
  rewrite (build_knowledge_base_chroma distance self texts metadatas d
             (built_documents texts metadatas) eq_refl).
  destruct (built_documents texts metadatas); [congruence | reflexivity].
Qed.

(** X19.  What [build_knowledge_base] stores when it has a document to
    store, another engine on the same directory and with the same embedding
    model gets back: [load_existing_knowledge_base] there succeeds, changes
    nothing on disk, and every retrieval through it equals the retrieval
    through the engine that built the index. *)
Theorem build_then_load_round_trip distance self texts metadatas d :
  built_documents texts metadatas <> [] ->
  exists self1 d1 self2,
    build_knowledge_base (VS := chroma distance) self texts metadatas d
    = inr (self1, d1)
    /\ load_existing_knowledge_base (VS := chroma distance)
         (MarketingRAG_init (persist_directory self) (embeddings self)) d1
       = inr (self2, d1)
    /\ forall query k,
         retrieve (VS := chroma distance) self2 query k d1
         = retrieve (VS := chroma distance) self1 query k d1.
Proof.
  intros Hdocs.
  eexists _, _, _. split; [apply build_knowledge_base_run, Hdocs|].
  split.
  - unfold load_existing_knowledge_base. cbn.
    rewrite lookup_insert_eq. cbn. rewrite insert_insert_eq. reflexivity.
  - reflexivity.
Qed.

(** X20.  Building again on the same directory does not replace the
    index: when each build has a document to store, the collection holds
    what it held, then the documents of the first build, then those of the
    second.  The other locations are untouched. *)
Theorem build_adds_to_collection distance self texts metadatas texts' metadatas' d :
  built_documents texts metadatas <> [] ->
  built_documents texts' metadatas' <> [] ->
  exists self1 d1 self2 d2,
    build_knowledge_base (VS := chroma distance) self texts metadatas d
    = inr (self1, d1)
    /\ build_knowledge_base (VS := chroma distance) self1 texts' metadatas' d1
       = inr (self2, d2)
    /\ d2 !! persist_directory self
       = Some (default [] (d !! persist_directory self)
               ++ built_documents texts metadatas
               ++ built_documents texts' metadatas')
    /\ forall p, p <> persist_directory self -> d2 !! p = d !! p.
Proof.
  intros Hdocs Hdocs'.
  eexists _, _, _, _. split; [apply build_knowledge_base_run, Hdocs|].
  split; [apply build_knowledge_base_run, Hdocs'|]. cbn. split.
  - rewrite lookup_insert_eq, lookup_insert_eq. cbn. rewrite <- app_assoc. reflexivity.
  - intros p Hp. rewrite !lookup_insert_ne by congruence. reflexivity.
Qed.

(** X21.  Loading where a collection is persisted returns normally and
    leaves the disk exactly as it was. *)
Theorem load_keeps_persisted_index distance self d entries :
  d !! persist_directory self = Some entries ->
  load_existing_knowledge_base (VS := chroma distance) self d
  = inr (with_store self, d).
Proof.
  intros H. unfold load_existing_knowledge_base. cbn. rewrite H. cbn.
  rewrite insert_id by assumption. reflexivity.
Qed.

Lemma load_keeps_persisted_index_witness :
  load_existing_knowledge_base (VS := chroma length_distance) demo_engine two_notes
  = inr (with_store demo_engine, two_notes).
Proof.
  apply (load_keeps_persisted_index length_distance demo_engine two_notes
           [ {| page_content := "CTR"; metadata := ∅ |};
             {| page_content := "ROAS is revenue over spend."; metadata := ∅ |} ]).
  reflexivity.
Defined.

(** ** Instances *)

Lemma load_rejects_bad_counter_witness :
  raises (load_and_process_campaigns text_conversions ∅).1.
Proof.
  apply (load_rejects_bad_counter text_conversions ∅ "conversions").
  - repeat constructor.
  - simpl. tauto.
  - right. exists "n/a", ["5"]. reflexivity.
Defined.

Lemma load_keeps_table_witness :
  exists v,
    load_and_process_campaigns two_channels ∅ = (inr (fresh (dom (∅ : gmap nat DataFrame))), <[fresh (dom (∅ : gmap nat DataFrame)) := v]> ∅)
    /\ (∅ : gmap nat DataFrame) !! fresh (dom (∅ : gmap nat DataFrame)) = None
    /\ frame_wf v
    /\ nrows v = nrows two_channels
    /\ (forall c, ~ In c derived -> frame_get c v = frame_get c two_channels)
    /\ (forall c, In c derived ->
          exists xs, frame_get c v = Some (SFloat xs)
                     /\ length xs = nrows two_channels).
Proof.
  apply (load_keeps_table two_channels
           [F 100; F 100; F 300] [F 150; F 400; F 300] [F 2000; F 1000; F 0]
           [F 40; F 50; F 0] [F 5; F 10; F 0] ∅);
    first [reflexivity | repeat constructor].
Defined.

Lemma load_ratio_rows_witness :
  exists df h' v cpa roas ctr,
    load_and_process_campaigns two_channels ∅ = (inr df, h')
    /\ h' !! df = Some v
    /\ frame_get "cpa_BRL" v = Some (SFloat cpa)
    /\ frame_get "roas" v = Some (SFloat roas)
    /\ frame_get "ctr" v = Some (SFloat ctr)
    /\ forall i,
         (forall n d, [F 100; F 100; F 300] !! i = Some n ->
                      [F 5; F 10; F 0] !! i = Some d ->
            cpa !! i = Some (if fgt d zero then fdiv n d else NaN))
         /\ (forall n d, [F 150; F 400; F 300] !! i = Some n ->
                         [F 100; F 100; F 300] !! i = Some d ->
               roas !! i = Some (if fgt d zero then fdiv n d else NaN))
         /\ (forall n d, [F 40; F 50; F 0] !! i = Some n ->
                         [F 2000; F 1000; F 0] !! i = Some d ->
               ctr !! i = Some (if fgt d zero then fdiv n d else NaN)).
Proof.
  apply (load_ratio_rows two_channels
           [F 100; F 100; F 300] [F 150; F 400; F 300] [F 2000; F 1000; F 0]
           [F 40; F 50; F 0] [F 5; F 10; F 0] ∅);
    first [reflexivity | repeat constructor].
Defined.

Lemma aggregate_one_row_per_channel_witness :
  exists g h' gv keys,
    aggregate_by_channel 0 {[ 0%nat := two_channels ]} = (inr g, h')
    /\ h' !! g = Some gv
    /\ frame_get "channel" gv = Some (SObj keys)
    /\ StronglySorted label_lt keys
    /\ NoDup keys
    /\ (forall c, c ∈ keys <-> c ∈ ["Meta"; "Google"; "Google"])
    /\ nrows gv = length keys
    /\ (length keys <= length ["Meta"; "Google"; "Google"])%nat
    /\ frame_wf gv
    /\ map fst (columns gv)
       = ["channel"; "spend_BRL"; "revenue_BRL"; "impressions"; "clicks";
          "conversions"; "cpa_BRL"; "roas"; "ctr"].
Proof.
  apply (aggregate_one_row_per_channel 0%nat {[ 0%nat := two_channels ]}
           two_channels ["Meta"; "Google"; "Google"]
           [F 100; F 100; F 300] [F 150; F 400; F 300] [F 2000; F 1000; F 0]
           [F 40; F 50; F 0] [F 5; F 10; F 0]);
    reflexivity.
Defined.

Lemma aggregate_rejects_missing_column_witness :
  exists key,
    aggregate_by_channel 0 {[ 0%nat := tied ]}
    = (inl (KeyError key), {[ 0%nat := tied ]}).
Proof.
  apply (aggregate_rejects_missing_column 0%nat {[ 0%nat := tied ]} tied "spend_BRL").
  - reflexivity.
  - right. simpl. tauto.
  - reflexivity.
Defined.

Lemma aggregate_empty_table_witness :
  exists g h' gv,
    aggregate_by_channel 0 {[ 0%nat := no_rows ]} = (inr g, h')
    /\ h' !! g = Some gv
    /\ nrows gv = 0%nat
    /\ frame_get "channel" gv = Some (SObj [])
    /\ (forall c, In c (counters ++ derived) -> frame_get c gv = Some (SFloat [])).
Proof.
  apply (aggregate_empty_table 0%nat {[ 0%nat := no_rows ]} no_rows).
  - reflexivity.
  - repeat constructor.
  - reflexivity.
  - exists []. reflexivity.
  - intros c Hc. simpl in Hc.
    repeat (destruct Hc as [<-|Hc]; [exists []; reflexivity|]). destruct Hc.
Defined.


Lemma best_channel_missing_column_witness :
  get_best_channel_by_roas 0 {[ 0%nat := scenario ]}
  = (inl missing_columns, {[ 0%nat := scenario ]}).
Proof.
  apply (best_channel_missing_column 0%nat {[ 0%nat := scenario ]} scenario).
  - reflexivity.
  - right. reflexivity.
Defined.

Lemma main_unsupported_question_witness :
  (main two_decimals float_repr (Some "Qual campanha teve melhor CTR?") scenario ∅).1
  = inr unsupported.
Proof.
  apply (main_unsupported_question two_decimals float_repr
           "Qual campanha teve melhor CTR?" scenario ["Google"; "Meta"]
           [F 100; F 100] [F 400; F 150] [F 1000; F 2000] [F 50; F 40] [F 10; F 5] ∅);
    first [reflexivity | repeat constructor].
Defined.


Lemma main_loads_before_routing_witness :
  raises (main two_decimals float_repr (Some "Qual campanha teve melhor CTR?")
            text_conversions ∅).1.
Proof.
  apply (main_loads_before_routing two_decimals float_repr
           (Some "Qual campanha teve melhor CTR?") text_conversions ∅ "conversions").
  - repeat constructor.
  - simpl. tauto.
  - right. exists "n/a", ["5"]. reflexivity.
Defined.

Lemma main_empty_table_raises_witness :
  raises (main two_decimals float_repr (Some "Qual canal teve melhor ROAS?") no_rows ∅).1.
Proof.
  apply (main_empty_table_raises two_decimals float_repr
           "Qual canal teve melhor ROAS?" no_rows ∅).
  - repeat constructor.
  - reflexivity.
  - exists []. reflexivity.
  - intros c Hc. simpl in Hc.
    repeat (destruct Hc as [<-|Hc]; [exists []; reflexivity|]). destruct Hc.
  - reflexivity.
  - reflexivity.
Defined.

Lemma build_adds_to_collection_witness :
  exists self1 d1 self2 d2,
    build_knowledge_base (VS := chroma length_distance) demo_engine ["CTR"] None ∅
    = inr (self1, d1)
    /\ build_knowledge_base (VS := chroma length_distance) self1 ["CTR"] None d1
       = inr (self2, d2)
    /\ d2 !! persist_directory demo_engine
       = Some (default [] ((∅ : gmap string (list Document)) !! persist_directory demo_engine)
               ++ built_documents ["CTR"] None ++ built_documents ["CTR"] None)
    /\ forall p, p <> persist_directory demo_engine ->
                 d2 !! p = (∅ : gmap string (list Document)) !! p.
Proof.
  apply (build_adds_to_collection length_distance demo_engine ["CTR"] None ["CTR"] None ∅);
    discriminate.
Defined.

Lemma build_then_load_round_trip_witness :
  exists self1 d1 self2,
    build_knowledge_base (VS := chroma length_distance) demo_engine
      ["ROAS is revenue over spend."; "CTR is clicks over impressions."] None ∅
    = inr (self1, d1)
    /\ load_existing_knowledge_base (VS := chroma length_distance)
         (MarketingRAG_init (persist_directory demo_engine) (embeddings demo_engine)) d1
       = inr (self2, d1)
    /\ forall query k,
         retrieve (VS := chroma length_distance) self2 query k d1
         = retrieve (VS := chroma length_distance) self1 query k d1.
Proof.
  apply (build_then_load_round_trip length_distance demo_engine
           ["ROAS is revenue over spend."; "CTR is clicks over impressions."] None ∅).
  discriminate.
Defined.
